(** * mesos-consul: the Consul registry backend ([consul/consul.go])

    A shallow embedding of the reconciliation engine: the agent connection
    pool, [Register], [registerUpstream], [deRegisterUpstream] and the
    mark-and-sweep [Deregister], together with the parts of the Go standard
    library and of the Consul API client they call. *)

From Stdlib Require Import ZArith.
From stdpp Require Import base option list strings gmap pretty.

Local Open Scope Z_scope.

(** ** The part of Go's [strings] package used by the source *)

Module Strings.

(** [strings.HasPrefix(s, prefix)]. *)
Fixpoint HasPrefix (s prefix : string) : bool :=
  match prefix, s with
  | EmptyString, _ => true
  | String _ _, EmptyString => false
  | String a p, String b s' => if decide (a = b) then HasPrefix s' p else false
  end.

(** [strings.Index(s, substr)]: the byte offset of the first occurrence of
    [substr] in [s]; Go's [-1] is [None]. *)
Fixpoint Index (s substr : string) : option nat :=
  if HasPrefix s substr then Some 0%nat
  else match s with
       | EmptyString => None
       | String _ s' => S <$> Index s' substr
       end.

(** [strings.Contains(s, substr)] is [Index(s, substr) >= 0]. *)
Definition Contains (s substr : string) : bool :=
  match Index s substr with Some _ => true | None => false end.

(** The slices [s[:n]] and [s[n:]]. *)
Fixpoint take (n : nat) (s : string) : string :=
  match n, s with
  | S n', String a s' => String a (take n' s')
  | _, _ => EmptyString
  end.

Fixpoint drop (n : nat) (s : string) : string :=
  match n, s with
  | S n', String _ s' => drop n' s'
  | _, _ => s
  end.

(** The loop of [genSplit] for a non-empty separator: cut at the first
    occurrence, continue with the rest.  Go bounds the loop by
    [Count(s, sep)], which is at most [len(s)]; the loop leaves as soon as
    [Index] finds nothing, so any bound from [Count(s, sep)] upwards gives
    the same pieces. *)
Fixpoint genSplit (n : nat) (s sep : string) : list string :=
  match n with
  | O => [s]
  | S n' =>
      match Index s sep with
      | None => [s]
      | Some m => take m s :: genSplit n' (drop (m + String.length sep) s) sep
      end
  end.

(** [explode]: the pieces for an empty separator, one byte each (the
    source only ever splits on [":"] and ["-"]). *)
Fixpoint explode (s : string) : list string :=
  match s with
  | EmptyString => []
  | String a s' => String a EmptyString :: explode s'
  end.

(** [strings.Split(s, sep)]. *)
Definition Split (s sep : string) : list string :=
  if decide (sep = "") then explode s
  else genSplit (String.length s) s sep.

End Strings.

(** ** [registry.Service]: the desired state handed to the backend *)

Module registry.

(** Modelled from the spec: the types [registry.Check] and
    [registry.Service], declared in the package [registry], which is not
    among the sources.  The fields are the ones [Register] and
    [registerUpstream] read, as the spec lists them for a service value. *)
Record Check := mkCheck {
  TTL : string;
  Script : string;
  HTTP : string;
  Interval : string
}.

Record Service := mkService {
  ID : string;
  Name : string;
  Agent : string;
  Port : Z;                   (* Go [int] *)
  Address : string;
  Tags : list string;
  SCheck : Check              (* the field [Check] *)
}.

End registry.

(** ** The part of [github.com/hashicorp/consul/api] the source uses *)

Module consulapi.

Record HttpBasicAuth := mkHttpBasicAuth {
  Username : string;
  Password : string
}.

(** [api.Config], with the one transport setting the source touches. *)
Record Config := mkConfig {
  Address : string;
  Scheme : string;
  Token : string;
  InsecureSkipVerify : bool;
  HttpAuth : option HttpBasicAuth
}.

(** [api.DefaultConfig()] without environment overrides. *)
Definition DefaultConfig : Config :=
  {| Address := "127.0.0.1:8500"; Scheme := "http"; Token := "";
     InsecureSkipVerify := false; HttpAuth := None |}.

(** [*api.Client]: a client is its configuration; the [nil] pointer is
    [None] at the type [option Client]. *)
Record Client := mkClient { config : Config }.

(** [api.AgentServiceCheck] and [api.AgentServiceRegistration]; their
    fields carry a [C] and an [R] in front, to keep them apart from the
    fields of [registry.Service] with the same names. *)
Record AgentServiceCheck := mkAgentServiceCheck {
  CTTL : string;
  CScript : string;
  CHTTP : string;
  CInterval : string
}.

Record AgentServiceRegistration := mkAgentServiceRegistration {
  RID : string;
  RName : string;
  RPort : Z;
  RAddress : string;
  RTags : list string;
  RCheck : AgentServiceCheck
}.

(** [api.KVPair]; [ModifyIndex] is left at its zero value by the source,
    which makes a check-and-set succeed only if the key does not exist. *)
Record KVPair := mkKVPair {
  Key : string;
  Value : string
}.

Global Instance HttpBasicAuth_eq_dec : EqDecision HttpBasicAuth.
Proof. solve_decision. Defined.
Global Instance Config_eq_dec : EqDecision Config.
Proof. solve_decision. Defined.
Global Instance Client_eq_dec : EqDecision Client.
Proof. solve_decision. Defined.
Global Instance AgentServiceCheck_eq_dec : EqDecision AgentServiceCheck.
Proof. solve_decision. Defined.
Global Instance AgentServiceRegistration_eq_dec :
  EqDecision AgentServiceRegistration.
Proof. solve_decision. Defined.
Global Instance KVPair_eq_dec : EqDecision KVPair.
Proof. solve_decision. Defined.

End consulapi.

Import registry consulapi.

(** ** Package [consul]: data *)

(** Modelled from the spec: the type [consulConfig], declared in the
    package's configuration file, which is not among the sources.  The
    fields are the ones [newAgent] reads: the catalog port, the access
    token, the TLS flags and the basic-auth credentials. *)
Record authConfig := mkAuthConfig {
  AuthEnabled : bool;
  AuthUsername : string;
  AuthPassword : string
}.

Record consulConfig := mkConsulConfig {
  port : string;
  token : string;
  sslEnabled : bool;
  sslVerify : bool;
  auth : authConfig
}.

(** [type Consul struct]: the agent connection pool and the configuration.
    A pool slot holds a pointer, which may be [nil] ([None]). *)
Record Consul := mkConsul {
  agents : gmap string (option Client);
  config : consulConfig
}.

(** Modelled from the spec: the cache entry type of the package's cache file,
    which is not among the sources.  The fields [service] and [agent] are
    the ones [Deregister] reads; the liveness mark is the spec's
    "unmarked"/"marked" state ([false]/[true]). *)
Record cacheEntry := mkCacheEntry {
  service : AgentServiceRegistration;
  agent : string;
  marked : bool
}.

(** ** The world outside the process *)

(** What the Consul cluster stores: the services each agent has registered,
    keyed by the agent's address and the service identifier, and the
    cluster-wide key/value store. *)
Record Remote := mkRemote {
  catalog : gmap (string * string) AgentServiceRegistration;
  kv : gmap string string
}.

(** Which requests fail in transport, and with what error text; and which
    configurations [api.NewClient] rejects. *)
Record Faults := mkFaults {
  register_err : Client → AgentServiceRegistration → option string;
  deregister_err : Client → string → option string;
  cas_err : Client → KVPair → option string;
  delete_err : Client → string → option string;
  newclient_err : Config → bool
}.

(** One round trip to Consul, with its result. *)
Inductive Event :=
| EvServiceRegister (cl : Client) (s : AgentServiceRegistration) (err : option string)
| EvServiceDeregister (cl : Client) (id : string) (err : option string)
| EvCAS (cl : Client) (p : KVPair) (work : bool) (err : option string)
| EvDelete (cl : Client) (key : string) (err : option string).

Global Instance Event_eq_dec : EqDecision Event.
Proof. solve_decision. Defined.

(** The whole state a call can read or change: the receiver [c], the
    package-level [serviceCache], the remote side, and the round trips made
    so far (oldest first). *)
Record State := mkState {
  this : Consul;
  serviceCache : gmap string cacheEntry;
  remote : Remote;
  faults : Faults;
  calls : list Event
}.

Definition set_agents (f : gmap string (option Client) → gmap string (option Client))
    (σ : State) : State :=
  {| this := {| agents := f (agents (this σ)); config := config (this σ) |};
     serviceCache := serviceCache σ; remote := remote σ;
     faults := faults σ; calls := calls σ |}.

Definition set_serviceCache (f : gmap string cacheEntry → gmap string cacheEntry)
    (σ : State) : State :=
  {| this := this σ; serviceCache := f (serviceCache σ); remote := remote σ;
     faults := faults σ; calls := calls σ |}.

Definition set_catalog
    (f : gmap (string * string) AgentServiceRegistration →
         gmap (string * string) AgentServiceRegistration) (σ : State) : State :=
  {| this := this σ; serviceCache := serviceCache σ;
     remote := {| catalog := f (catalog (remote σ)); kv := kv (remote σ) |};
     faults := faults σ; calls := calls σ |}.

Definition set_kv (f : gmap string string → gmap string string) (σ : State) : State :=
  {| this := this σ; serviceCache := serviceCache σ;
     remote := {| catalog := catalog (remote σ); kv := f (kv (remote σ)) |};
     faults := faults σ; calls := calls σ |}.

Definition record (e : Event) (σ : State) : State :=
  {| this := this σ; serviceCache := serviceCache σ; remote := remote σ;
     faults := faults σ; calls := calls σ ++ [e] |}.

(** ** Calls that may return, panic, or end the process *)

Inductive RuntimeError :=
| IndexOutOfRange (i len : nat)     (* index out of range [i] with length len *)
| NilDereference.                   (* invalid memory address or nil pointer dereference *)

(** A call returns a value, panics with a runtime error, or ends the process
    through [log.Fatal]; each with the state reached by then. *)
Inductive Outcome (A : Type) :=
| Ok (a : A) (σ : State)
| Panic (e : RuntimeError) (σ : State)
| Fatal (σ : State).
Arguments Ok {A} a σ.
Arguments Panic {A} e σ.
Arguments Fatal {A} σ.

Definition state_of {A} (o : Outcome A) : State :=
  match o with Ok _ σ | Panic _ σ | Fatal σ => σ end.

Definition M (A : Type) : Type := State → Outcome A.

Global Instance M_ret : MRet M := λ A a σ, Ok a σ.
Global Instance M_bind : MBind M := λ A B k m σ,
  match m σ with
  | Ok a σ' => k a σ'
  | Panic e σ' => Panic e σ'
  | Fatal σ' => Fatal σ'
  end.

Definition get : M State := λ σ, Ok σ σ.
Definition modify (f : State → State) : M unit := λ σ, Ok tt (f σ).
Definition panic {A} (e : RuntimeError) : M A := λ σ, Panic e σ.
Definition fatal {A} : M A := λ σ, Fatal σ.

(** [l[i]] on a slice. *)
Definition index {A} (l : list A) (i : nat) : M A :=
  match l !! i with
  | Some x => mret x
  | None => panic (IndexOutOfRange i (length l))
  end.

(** ** The Consul API client *)

(** [api.NewClient(config)]. *)
Definition NewClient (cfg : Config) : M (option Client) :=
  σ ← get;
  if newclient_err (faults σ) cfg then fatal else mret (Some (mkClient cfg)).

(** [cl.Agent().ServiceRegister(s)]: building the request reads the client's
    configuration, so a [nil] client faults.  A request that fails in
    transport leaves the remote side as it was. *)
Definition ServiceRegister (cl : option Client) (s : AgentServiceRegistration)
    : M (option string) :=
  match cl with
  | None => panic NilDereference
  | Some cl =>
      σ ← get;
      match register_err (faults σ) cl s with
      | Some e => modify (record (EvServiceRegister cl s (Some e)));; mret (Some e)
      | None =>
          modify (set_catalog <[(Address (consulapi.config cl), RID s) := s]>);;
          modify (record (EvServiceRegister cl s None));;
          mret None
      end
  end.

(** [cl.Agent().ServiceDeregister(id)]. *)
Definition ServiceDeregister (cl : option Client) (id : string) : M (option string) :=
  match cl with
  | None => panic NilDereference
  | Some cl =>
      σ ← get;
      match deregister_err (faults σ) cl id with
      | Some e => modify (record (EvServiceDeregister cl id (Some e)));; mret (Some e)
      | None =>
          modify (set_catalog (delete (Address (consulapi.config cl), id)));;
          modify (record (EvServiceDeregister cl id None));;
          mret None
      end
  end.

(** [cl.KV().CAS(p, nil)] with [p.ModifyIndex = 0]: the pair is written only
    if the key does not exist; the first result says whether it was. *)
Definition CAS (cl : option Client) (p : KVPair) : M (bool * option string) :=
  match cl with
  | None => panic NilDereference
  | Some cl =>
      σ ← get;
      match cas_err (faults σ) cl p with
      | Some e => modify (record (EvCAS cl p false (Some e)));; mret (false, Some e)
      | None =>
          match kv (remote σ) !! Key p with
          | Some _ => modify (record (EvCAS cl p false None));; mret (false, None)
          | None =>
              modify (set_kv <[Key p := Value p]>);;
              modify (record (EvCAS cl p true None));;
              mret (true, None)
          end
      end
  end.

(** [cl.KV().Delete(key, nil)]. *)
Definition Delete (cl : option Client) (key : string) : M (option string) :=
  match cl with
  | None => panic NilDereference
  | Some cl =>
      σ ← get;
      match delete_err (faults σ) cl key with
      | Some e => modify (record (EvDelete cl key (Some e)));; mret (Some e)
      | None =>
          modify (set_kv (delete key));;
          modify (record (EvDelete cl key None));;
          mret None
      end
  end.

(** ** Package [consul]: the registration cache *)

(** Modelled from the spec: [newCacheEntry] of the package's cache file,
    which is not among the sources.  A new entry owns the registration sent
    to the catalog and the agent address used, and starts unmarked. *)
Definition newCacheEntry (s : AgentServiceRegistration) (a : string) : cacheEntry :=
  {| service := s; agent := a; marked := false |}.

Definition set_marked (m : bool) (e : cacheEntry) : cacheEntry :=
  {| service := service e; agent := agent e; marked := m |}.

(** Modelled from the spec: [mark(id)], the source's [CacheMark], which is
    not among the sources.  It moves the entry to "marked"; a no-op, not an
    error, if [id] is absent. *)
Definition CacheMark (id : string) : M unit :=
  modify (set_serviceCache (alter (set_marked true) id)).

(** Modelled from the spec: [isStale(id)]: true if the entry exists and is
    unmarked. *)
Definition isStale (id : string) (σ : State) : bool :=
  match serviceCache σ !! id with
  | Some e => negb (marked e)
  | None => false
  end.

(** Modelled from the spec: [CacheIsValid], which is not among the sources;
    the sweep takes its first branch exactly when [isStale(id)] is false. *)
Definition CacheIsValid (id : string) : M bool :=
  σ ← get; mret (negb (isStale id σ)).

(** Modelled from the spec: [CacheProcessDeregister], which is not among the
    sources; it resets the entry's mark to "unmarked" for the next cycle. *)
Definition CacheProcessDeregister (id : string) : M unit :=
  modify (set_serviceCache (alter (set_marked false) id)).

(** ** Package [consul]: the agent connection pool *)

(** [New()], in a given world. *)
Definition New (cfg : consulConfig) (r : Remote) (f : Faults) : State :=
  {| this := {| agents := ∅; config := cfg |};
     serviceCache := ∅; remote := r; faults := f; calls := [] |}.

(** The read [c.agents[address]]: a missing key reads as [nil]. *)
Definition agents_at (address : string) : M (option Client) :=
  σ ← get; mret (default None (agents (this σ) !! address)).

(** The configuration [newAgent] builds for an address before it calls
    [api.NewClient]. *)
Definition agentConfig (c : consulConfig) (address : string) : Config :=
  let config := DefaultConfig in
  let config :=
    {| Address := address +:+ ":" +:+ port c; Scheme := Scheme config;
       Token := Token config; InsecureSkipVerify := InsecureSkipVerify config;
       HttpAuth := HttpAuth config |} in
  let config :=
    if decide (token c = "") then config
    else {| Address := Address config; Scheme := Scheme config;
            Token := token c; InsecureSkipVerify := InsecureSkipVerify config;
            HttpAuth := HttpAuth config |} in
  let config :=
    if sslEnabled c
    then {| Address := Address config; Scheme := "https";
            Token := Token config; InsecureSkipVerify := InsecureSkipVerify config;
            HttpAuth := HttpAuth config |}
    else config in
  let config :=
    if negb (sslVerify c)
    then {| Address := Address config; Scheme := Scheme config;
            Token := Token config; InsecureSkipVerify := true;
            HttpAuth := HttpAuth config |}
    else config in
  if AuthEnabled (auth c)
  then {| Address := Address config; Scheme := Scheme config;
          Token := Token config; InsecureSkipVerify := InsecureSkipVerify config;
          HttpAuth := Some {| Username := AuthUsername (auth c);
                              Password := AuthPassword (auth c) |} |}
  else config.

Definition newAgent (address : string) : M (option Client) :=
  if decide (address = "") then mret None
  else σ ← get; NewClient (agentConfig (config (this σ)) address).

(** The statement that opens [client], [Register] and [deregister]:
    [if _, ok := c.agents[address]; !ok { c.agents[address] = c.newAgent(address) }]. *)
Definition connect (address : string) : M unit :=
  σ ← get;
  match agents (this σ) !! address with
  | Some _ => mret tt
  | None => a ← newAgent address; modify (set_agents <[address := a]>)
  end.

Definition client (address : string) : M (option Client) :=
  if decide (address = "") then mret None
  else connect address;; agents_at address.

(** ** Package [consul]: registration *)

(** [fmt.Sprintf("upstreams/%s/%s:%d", name, agent, port)]. *)
Definition hkey_of (name agent : string) (port : Z) : string :=
  "upstreams/" +:+ name +:+ "/" +:+ agent +:+ ":" +:+ pretty port.

(** The double quote character, as a one-byte string. *)
Definition dq : string := String (Ascii.ascii_of_nat 34) EmptyString.

(** The value literal of [registerUpstream]: a JSON object with the
    members weight 1, max_fails 2 and fail_timeout 10, written with a space
    after each comma. *)
Definition upstream_value : string :=
  "{" +:+ dq +:+ "weight" +:+ dq +:+ ":1, " +:+
  dq +:+ "max_fails" +:+ dq +:+ ":2, " +:+
  dq +:+ "fail_timeout" +:+ dq +:+ ":10}".

Definition registerUpstream (service : Service) : M (option string * bool) :=
  let hkey := hkey_of (Name service) (Agent service) (Port service) in
  let value := upstream_value in
  let p := {| Key := hkey; Value := value |} in
  cl ← agents_at (Agent service);
  r ← CAS cl p;
  match r with
  | (_, Some e) => mret (Some ("Unable to CAS key " +:+ hkey +:+ ": " +:+ e), false)
  | (_, None) => mret (None, true)
  end.

(** The registration [Register] builds from the service: the struct literal
    and the statement that copies the tags when there are any. *)
Definition registration (service : Service) : AgentServiceRegistration :=
  let s :=
    {| RID := ID service;
       RName := Name service;
       RPort := Port service;
       RAddress := registry.Address service;
       RTags := [];
       RCheck := {| CTTL := TTL (SCheck service);
                    CScript := Script (SCheck service);
                    CHTTP := HTTP (SCheck service);
                    CInterval := Interval (SCheck service) |} |} in
  if decide (0 < length (Tags service))%nat
  then {| RID := RID s; RName := RName s; RPort := RPort s;
          RAddress := RAddress s; RTags := Tags service; RCheck := RCheck s |}
  else s.

Definition Register (service : Service) : M unit :=
  σ ← get;
  match serviceCache σ !! ID service with
  | Some _ => CacheMark (ID service)
  | None =>
      connect (Agent service);;
      let s := registration service in
      cl ← agents_at (Agent service);
      err ← ServiceRegister cl s;
      match err with
      | Some _ => mret tt
      | None =>
          r ← registerUpstream service;
          if negb r.2 then mret tt
          else
            modify (set_serviceCache <[RID s := newCacheEntry s (Agent service)]>);;
            CacheMark (RID s)
      end
  end.

(** ** Package [consul]: deregistration *)

(** The agent name [deRegisterUpstream] works out from the identifier of the
    stored registration (its first five lines). *)
Definition upstreamAgent (id : string) : M string :=
  let agents := Strings.Split id ":" in
  agent ← index agents 1;
  if Strings.Contains agent "-"
  then index (Strings.Split agent "-") 0
  else mret agent.

Definition deRegisterUpstream (service : AgentServiceRegistration)
    : M (option string * bool) :=
  agent ← upstreamAgent (RID service);
  let hkey := hkey_of (RName service) agent (RPort service) in
  σ ← get;
  match agents (this σ) !! agent with
  | Some cl =>
      e ← Delete cl hkey;
      match e with
      | Some e => mret (Some ("Unable to Delete key " +:+ hkey +:+ ": " +:+ e), false)
      | None => mret (None, true)
      end
  | None => mret (None, true)
  end.

Definition deregister (agent : string) (service : AgentServiceRegistration)
    : M (option string) :=
  connect agent;;
  cl ← agents_at agent;
  ServiceDeregister cl (RID service).

(** The body of the loop of [Deregister], for the key [s] and the entry [b]
    the iteration yields. *)
Definition sweep_entry (s : string) (b : cacheEntry) : M unit :=
  valid ← CacheIsValid s;
  if (valid : bool) then CacheProcessDeregister s
  else
    err ← deregister (agent b) (service b);
    match err with
    | Some _ => mret tt
    | None =>
        deRegisterUpstream (service b);;
        modify (set_serviceCache (delete s))
    end.

(** [for s, b := range serviceCache]: Go visits the keys in an order of its
    own choosing, given here as [order]; a key whose entry was deleted
    before the loop reached it is not produced. *)
Fixpoint range_serviceCache (order : list string)
    (body : string → cacheEntry → M unit) : M unit :=
  match order with
  | [] => mret tt
  | s :: rest =>
      σ ← get;
      match serviceCache σ !! s with
      | Some b => body s b
      | None => mret tt
      end;;
      range_serviceCache rest body
  end.

Definition Deregister (order : list string) : M unit :=
  range_serviceCache order sweep_entry.


(** ** Notions the properties are stated with *)

(** The round trips made between the states [σ] and [σ']. *)
Definition new_calls (σ σ' : State) : list Event :=
  drop (length (calls σ)) (calls σ').

(** Whether the byte [c] occurs in [s]. *)
Fixpoint occurs (c : Ascii.ascii) (s : string) : bool :=
  match s with
  | EmptyString => false
  | String a s' => if decide (a = c) then true else occurs c s'
  end.

(** The fields of [s] between the occurrences of the byte [c], found by
    going through [s] once. *)
Fixpoint fields (c : Ascii.ascii) (s : string) : list string :=
  match s with
  | EmptyString => [EmptyString]
  | String a s' =>
      if decide (a = c) then EmptyString :: fields c s'
      else match fields c s' with
           | x :: xs => String a x :: xs
           | [] => [String a EmptyString]
           end
  end.

(** The fields put together again, with [c] between them. *)
Fixpoint join (c : Ascii.ascii) (l : list string) : string :=
  match l with
  | [] => EmptyString
  | [x] => x
  | x :: l' => x +:+ String c (join c l')
  end.

Definition colon : Ascii.ascii := Ascii.ascii_of_nat 58.
Definition dash : Ascii.ascii := Ascii.ascii_of_nat 45.

(** The backend agent of an identifier, in the spec's words: split on the
    colon and take the second component; if that contains a dash, split on
    the dash and take the first part.  There is none when the identifier
    has no second component. *)
Definition agent_of_identifier (id : string) : option string :=
  match fields colon id with
  | _ :: second :: _ =>
      Some (if occurs dash second then hd EmptyString (fields dash second)
            else second)
  | _ => None
  end.

(** The number of catalog registration round trips for the identifier
    [id] among [evs]. *)
Definition is_registration (id : string) (e : Event) : bool :=
  match e with
  | EvServiceRegister _ s _ => bool_decide (RID s = id)
  | _ => false
  end.

Definition registrations (id : string) (evs : list Event) : nat :=
  length (List.filter (is_registration id) evs).

(** The caller's loop of one cycle: [Register] for each desired service. *)
Fixpoint RegisterAll (svcs : list Service) : M unit :=
  match svcs with
  | [] => mret tt
  | svc :: rest => Register svc;; RegisterAll rest
  end.

(** The order in which a [range] visits the cache of [σ]: every key, once. *)
Definition range_order (order : list string) (σ : State) : Prop :=
  NoDup order ∧ list_to_set order = dom (serviceCache σ).

(** What a sweep from [σ] to [σ'] does to the entries of the cache: a
    marked entry stays, with its mark reset; for an unmarked one the
    catalog is asked to deregister the stored identifier through the
    connection to the entry's agent, and if that succeeds the entry is gone
    from the cache. *)
Definition sweep_post (σ σ' : State) : Prop :=
  ∀ s b, serviceCache σ !! s = Some b →
    if marked b then serviceCache σ' !! s = Some (set_marked false b)
    else ∃ cl,
      agents (this σ') !! agent b = Some (Some cl) ∧
      EvServiceDeregister cl (RID (service b))
        (deregister_err (faults σ) cl (RID (service b))) ∈ new_calls σ σ' ∧
      (deregister_err (faults σ) cl (RID (service b)) = None →
       serviceCache σ' !! s = None).

(** A cache the sweep can work on without a fault: no pooled connection is
    [nil]; and every unmarked entry has its agent's connection in the pool
    and a colon in its stored identifier. *)
Definition sweep_ready (σ : State) : Prop :=
  map_Forall (λ _ c, c ≠ None) (agents (this σ)) ∧
  map_Forall (λ _ b, marked b = false →
                is_Some (agents (this σ) !! agent b) ∧
                Strings.Contains (RID (service b)) ":" = true)
    (serviceCache σ).

(** The remote side changes on its own account, too. *)
Definition set_world (r : Remote) (f : Faults) (σ : State) : State :=
  {| this := this σ; serviceCache := serviceCache σ; remote := r;
     faults := f; calls := calls σ |}.

(** The states a process gets to: from [New], through calls of [client],
    [Register] and [Deregister] that return, with the remote side free to
    change between the calls. *)
Inductive reachable : State → Prop :=
| reachable_New cfg r f : reachable (New cfg r f)
| reachable_client σ address cl σ' :
    reachable σ → client address σ = Ok cl σ' → reachable σ'
| reachable_Register σ svc σ' :
    reachable σ → Register svc σ = Ok tt σ' → reachable σ'
| reachable_Deregister σ order σ' :
    reachable σ → range_order order σ → Deregister order σ = Ok tt σ' →
    reachable σ'
| reachable_world σ r f :
    reachable σ → reachable (set_world r f σ).

(** What holds of every reachable state: a pooled connection is the one
    [newAgent] makes for its non-empty address; a cache entry sits under the
    identifier of its registration, and its agent's connection is pooled. *)
Definition pool_wf (σ : State) : Prop :=
  ∀ a c, agents (this σ) !! a = Some c →
    a ≠ "" ∧ c = Some (mkClient (agentConfig (config (this σ)) a)).

Definition cache_wf (σ : State) : Prop :=
  ∀ s b, serviceCache σ !! s = Some b →
    RID (service b) = s ∧ is_Some (agents (this σ) !! agent b).

(** Every cache entry is backed by a catalog registration of its payload
    and a backend metadata write for its name, agent and port that both
    went through, by the same connection. *)
Definition cache_backed (σ : State) : Prop :=
  ∀ s b, serviceCache σ !! s = Some b →
    ∃ cl work,
      EvServiceRegister cl (service b) None ∈ calls σ ∧
      EvCAS cl {| Key := hkey_of (RName (service b)) (agent b) (RPort (service b));
                  Value := upstream_value |} work None ∈ calls σ.

(** From [σ] to [σ'] no entry has come into the cache, and none has changed
    but in its mark. *)
Definition shrinks (σ σ' : State) : Prop :=
  ∀ s b', serviceCache σ' !! s = Some b' →
    ∃ b, serviceCache σ !! s = Some b ∧
         service b' = service b ∧ agent b' = agent b.

Definition shrinking {A} (m : M A) : Prop :=
  ∀ σ, shrinks σ (state_of (m σ)).

(** The value the spec gives for a backend metadata record. *)
Definition spec_value : string :=
  "{" +:+ dq +:+ "weight" +:+ dq +:+ ":1," +:+
  dq +:+ "max_fails" +:+ dq +:+ ":2," +:+
  dq +:+ "fail_timeout" +:+ dq +:+ ":10}".

(** [s] without its spaces. *)
Fixpoint unspaced (s : string) : string :=
  match s with
  | EmptyString => EmptyString
  | String a s' =>
      if decide (a = Ascii.ascii_of_nat 32) then unspaced s'
      else String a (unspaced s')
  end.

(** What every call of the package leaves alone, apart from the cache
    entries under the keys in [K]: the fault behaviour and the configuration
    stay, pooled connections stay where they are, round trips are only
    added, and the other cache entries are untouched. *)
Definition frame (K : string → Prop) (σ σ' : State) : Prop :=
  faults σ' = faults σ ∧
  config (this σ') = config (this σ) ∧
  agents (this σ) ⊆ agents (this σ') ∧
  (∃ evs, calls σ' = calls σ ++ evs) ∧
  ∀ s, ¬ K s → serviceCache σ' !! s = serviceCache σ !! s.

Definition framed {A} (K : string → Prop) (m : M A) : Prop :=
  ∀ σ, frame K σ (state_of (m σ)).

(** The pool once the statement [connect address] is through, if it gets
    through: a slot that is there stays, a missing one is filled with what
    [newAgent] returns. *)
Definition pool_after (σ : State) (address : string) : gmap string (option Client) :=
  match agents (this σ) !! address with
  | Some _ => agents (this σ)
  | None =>
      <[address := if decide (address = "") then None
                   else Some (mkClient (agentConfig (config (this σ)) address))]>
        (agents (this σ))
  end.

(** The pair [registerUpstream] offers to the key/value store. *)
Definition upstream_pair (svc : Service) : KVPair :=
  {| Key := hkey_of (Name svc) (Agent svc) (Port svc); Value := upstream_value |}.

(** The ways a [Register] call for an identifier that is not in the cache
    can end, from the state [σ]: with a fault on a [nil] connection; with
    [log.Fatal], when no client could be made; with a failed catalog
    registration; with a failed backend metadata write after a registration
    that went through; or with both done and the entry in the cache. *)
Inductive RegisterMiss (svc : Service) (σ : State) : Outcome unit → Prop :=
| RegisterMiss_nil σ1 :
    agents (this σ1) = pool_after σ (Agent svc) →
    agents (this σ1) !! Agent svc = Some None →
    serviceCache σ1 = serviceCache σ →
    calls σ1 = calls σ →
    remote σ1 = remote σ →
    RegisterMiss svc σ (Panic NilDereference σ1)
| RegisterMiss_fatal :
    agents (this σ) !! Agent svc = None →
    Agent svc ≠ "" →
    newclient_err (faults σ) (agentConfig (config (this σ)) (Agent svc)) = true →
    RegisterMiss svc σ (Fatal σ)
| RegisterMiss_catalog cl e σ1 :
    agents (this σ1) = pool_after σ (Agent svc) →
    agents (this σ1) !! Agent svc = Some (Some cl) →
    register_err (faults σ) cl (registration svc) = Some e →
    serviceCache σ1 = serviceCache σ →
    calls σ1 = calls σ ++ [EvServiceRegister cl (registration svc) (Some e)] →
    remote σ1 = remote σ →
    RegisterMiss svc σ (Ok tt σ1)
| RegisterMiss_upstream cl e σ1 :
    agents (this σ1) = pool_after σ (Agent svc) →
    agents (this σ1) !! Agent svc = Some (Some cl) →
    register_err (faults σ) cl (registration svc) = None →
    cas_err (faults σ) cl (upstream_pair svc) = Some e →
    serviceCache σ1 = serviceCache σ →
    calls σ1 = calls σ ++ [EvServiceRegister cl (registration svc) None;
                           EvCAS cl (upstream_pair svc) false (Some e)] →
    kv (remote σ1) = kv (remote σ) →
    RegisterMiss svc σ (Ok tt σ1)
| RegisterMiss_done cl σ1 :
    agents (this σ1) = pool_after σ (Agent svc) →
    agents (this σ1) !! Agent svc = Some (Some cl) →
    register_err (faults σ) cl (registration svc) = None →
    cas_err (faults σ) cl (upstream_pair svc) = None →
    serviceCache σ1 =
      <[ID svc := set_marked true (newCacheEntry (registration svc) (Agent svc))]>
        (serviceCache σ) →
    calls σ1 = calls σ ++
      [EvServiceRegister cl (registration svc) None;
       EvCAS cl (upstream_pair svc)
         (bool_decide (kv (remote σ) !! Key (upstream_pair svc) = None)) None] →
    catalog (remote σ1) =
      <[(Address (consulapi.config cl), ID svc) := registration svc]> (catalog (remote σ)) →
    kv (remote σ1) =
      match kv (remote σ) !! Key (upstream_pair svc) with
      | Some _ => kv (remote σ)
      | None => <[Key (upstream_pair svc) := upstream_value]> (kv (remote σ))
      end →
    RegisterMiss svc σ (Ok tt σ1).

(** A call keeps the relation [R] between the state it starts from and the
    state it ends in, however it ends. *)
Definition preserves {A} (R : State → State → Prop) (m : M A) : Prop :=
  ∀ σ, R σ (state_of (m σ)).

(** Round trips that take something away from the remote side. *)
Definition is_removal (e : Event) : bool :=
  match e with
  | EvServiceDeregister _ _ _ | EvDelete _ _ _ => true
  | _ => false
  end.

(** Round trips that put something there, the catalog registrations being
    for the identifier [id]. *)
Definition is_write_for (id : string) (e : Event) : bool :=
  match e with
  | EvServiceRegister _ s _ => bool_decide (RID s = id)
  | EvCAS _ _ _ _ => true
  | _ => false
  end.

(** From [σ] to [σ'] the remote side has only lost entries, through round
    trips that remove. *)
Definition only_removes (σ σ' : State) : Prop :=
  kv (remote σ') ⊆ kv (remote σ) ∧
  catalog (remote σ') ⊆ catalog (remote σ) ∧
  ∃ evs, calls σ' = calls σ ++ evs ∧ Forall (λ e, is_removal e = true) evs.

(** From [σ] to [σ'] the remote side has only gained: every key/value
    record is still there, unchanged; the catalog is as it was but for
    services with the identifier [id], and lists whatever it listed; the
    round trips made are writes. *)
Definition only_adds (id : string) (σ σ' : State) : Prop :=
  kv (remote σ) ⊆ kv (remote σ') ∧
  (∀ k, k.2 ≠ id → catalog (remote σ') !! k = catalog (remote σ) !! k) ∧
  (∀ k, is_Some (catalog (remote σ) !! k) → is_Some (catalog (remote σ') !! k)) ∧
  ∃ evs, calls σ' = calls σ ++ evs ∧ Forall (λ e, is_write_for id e = true) evs.

(** What the sweep makes of an entry: a marked one stays, unmarked; an
    unmarked one stays as it is if the catalog deregistration through its
    agent's connection fails, and goes if it succeeds. *)
Definition sweep_fate (σ : State) (b : cacheEntry) : option cacheEntry :=
  if marked b then Some (set_marked false b)
  else match agents (this σ) !! agent b with
       | Some (Some cl) =>
           match deregister_err (faults σ) cl (RID (service b)) with
           | Some _ => Some b
           | None => None
           end
       | _ => Some b
       end.

(** An identifier made of a prefix, the agent and possibly more, with
    colons between them. *)
Definition composed (id p a : string) : Prop :=
  occurs colon p = false ∧ occurs colon a = false ∧
  (id = p +:+ ":" +:+ a ∨ ∃ r, id = p +:+ ":" +:+ a +:+ ":" +:+ r).

(** [ev] is a request the sweep makes for the cache entry [b], through a
    connection of the pool of [σ']: the deregistration of the entry's stored
    identifier through the connection to the entry's agent, or the deletion
    of the metadata key made from the entry's name and port and the agent
    name read off its identifier. *)
Definition sweeps (σ' : State) (b : cacheEntry) (ev : Event) : Prop :=
  match ev with
  | EvServiceDeregister cl id _ =>
      id = RID (service b) ∧ agents (this σ') !! agent b = Some (Some cl)
  | EvDelete cl key _ =>
      ∃ a, agent_of_identifier (RID (service b)) = Some a ∧
           key = hkey_of (RName (service b)) a (RPort (service b)) ∧
           agents (this σ') !! a = Some (Some cl)
  | _ => False
  end.

(** ** Example inputs *)

Definition no_faults : Faults :=
  {| register_err := λ _ _, None; deregister_err := λ _ _, None;
     cas_err := λ _ _, None; delete_err := λ _ _, None;
     newclient_err := λ _, false |}.

(** Worlds in which one kind of request fails. *)
Definition catalog_down : Faults :=
  {| register_err := λ _ _, Some "connection refused";
     deregister_err := λ _ _, Some "connection refused";
     cas_err := λ _ _, None; delete_err := λ _ _, None;
     newclient_err := λ _, false |}.

Definition kv_down : Faults :=
  {| register_err := λ _ _, None; deregister_err := λ _ _, None;
     cas_err := λ _ _, Some "connection refused";
     delete_err := λ _ _, Some "connection refused";
     newclient_err := λ _, false |}.

Definition plain_config : consulConfig :=
  {| port := "8500"; token := ""; sslEnabled := false; sslVerify := true;
     auth := {| AuthEnabled := false; AuthUsername := ""; AuthPassword := "" |} |}.

Definition no_check : Check :=
  {| TTL := ""; Script := ""; HTTP := ""; Interval := "" |}.

(** A service whose identifier names its agent. *)
Definition web1 : Service :=
  {| ID := "web-1:agentA-3"; Name := "web"; Agent := "agentA"; Port := 80;
     registry.Address := "10.0.0.1"; Tags := []; SCheck := no_check |}.

(** A service whose identifier has no colon. *)
Definition bare : Service :=
  {| ID := "web"; Name := "web"; Agent := "agentA"; Port := 80;
     registry.Address := "10.0.0.1"; Tags := []; SCheck := no_check |}.

(** A service whose identifier names something else than its agent. *)
Definition job : Service :=
  {| ID := "job:web"; Name := "web"; Agent := "agentA"; Port := 80;
     registry.Address := "10.0.0.1"; Tags := []; SCheck := no_check |}.

(** A service without an agent address. *)
Definition lost : Service :=
  {| ID := "lost:x"; Name := "lost"; Agent := ""; Port := 80;
     registry.Address := "10.0.0.1"; Tags := []; SCheck := no_check |}.

(** The two tasks of the spec's scenario, on the same agent. *)
Definition taskA : Service :=
  {| ID := "mesos-consul:agent1:A:80"; Name := "A"; Agent := "agent1"; Port := 80;
     registry.Address := "10.0.0.1"; Tags := ["blue"]; SCheck := no_check |}.

Definition taskB : Service :=
  {| ID := "mesos-consul:agent1:B:81"; Name := "B"; Agent := "agent1"; Port := 81;
     registry.Address := "10.0.0.1"; Tags := []; SCheck := no_check |}.

(** One reconciliation cycle: register what is desired, then sweep, the
    cache being visited in the given order. *)
Definition cycle (desired : list Service) (order : list string) : M unit :=
  RegisterAll desired;; Deregister order.



Definition start : State := New plain_config (mkRemote ∅ ∅) no_faults.

(** The client [newAgent] makes for ["agentA"]. *)
Definition clientA : Client := mkClient (agentConfig plain_config "agentA").

(** The state one cycle after [svc] was registered and then no longer
    presented: the entry is in the cache, unmarked. *)
Definition stale_after (svc : Service) : State :=
  state_of ((Register svc;; Deregister [ID svc]) start).

(** * Properties *)

(** ** Splitting on one byte *)

Section split_by_byte.
Variable c : Ascii.ascii.
Local Abbreviation sep := (String c EmptyString).

Lemma HasPrefix_byte a s :
  Strings.HasPrefix (String a s) sep = bool_decide (c = a).
Proof. simpl. case_decide; case_bool_decide; try done; by destruct s. Qed.

Lemma Index_cons a s :
  Strings.Index (String a s) sep =
  if decide (a = c) then Some 0%nat else S <$> Strings.Index s sep.
Proof.
  change (Strings.Index (String a s) sep) with
    (if Strings.HasPrefix (String a s) sep then Some 0%nat
     else S <$> Strings.Index s sep).
  rewrite HasPrefix_byte.
  case_decide; case_bool_decide; congruence.
Qed.

(** [strings.Contains] with a one-byte pattern says whether the byte occurs. *)
Lemma Contains_occurs s : Strings.Contains s sep = occurs c s.
Proof.
  unfold Strings.Contains. induction s as [|a s IH]; [done|].
  rewrite Index_cons. simpl. case_decide; [done|].
  rewrite <- IH. by destruct (Strings.Index s sep).
Qed.

Lemma fields_nonempty s : fields c s ≠ [].
Proof.
  induction s as [|a s IH]; simpl; [done|].
  case_decide; [done|]. by destruct (fields c s).
Qed.

Lemma genSplit_fields n s :
  (String.length s ≤ n)%nat → Strings.genSplit n s sep = fields c s.
Proof.
  revert n. induction s as [|a s IH]; intros n Hn.
  { by destruct n. }
  destruct n as [|n]; [simpl in Hn; lia|].
  simpl in Hn.
  cbn [Strings.genSplit]. rewrite Index_cons.
  cbn [fields]. case_decide as Hac.
  - simpl. f_equal. apply IH. lia.
  - rewrite <- (IH (S n)) by lia. cbn [Strings.genSplit].
    destruct (Strings.Index s sep) as [m|] eqn:Hm; simpl; done.
Qed.

(** [strings.Split] on one byte computes the fields. *)
Lemma Split_fields s : Strings.Split s sep = fields c s.
Proof.
  unfold Strings.Split. rewrite decide_False by done.
  by apply genSplit_fields.
Qed.

(** The fields are right: joined they give the text back, and none of them
    holds the separator. *)
Lemma join_fields s : join c (fields c s) = s.
Proof.
  induction s as [|a s IH]; simpl; [done|].
  pose proof (fields_nonempty s).
  case_decide; subst.
  - destruct (fields c s) eqn:E; [done|]. simpl in *. by rewrite IH.
  - destruct (fields c s) as [|x [|y l]] eqn:E; [done|..];
      simpl in *; by rewrite <- IH.
Qed.

Lemma fields_free s : Forall (λ x, occurs c x = false) (fields c s).
Proof.
  induction s as [|a s IH]; simpl; [by repeat constructor|].
  case_decide; [by constructor|].
  destruct (fields c s) as [|x l].
  - repeat constructor. simpl. by rewrite decide_False.
  - inversion IH; subst. constructor; [|done]. simpl. by rewrite decide_False.
Qed.

(** A text without the separator is its own single field, and only then is
    there a single field. *)
Lemma fields_single s : occurs c s = false ↔ ∃ x, fields c s = [x].
Proof.
  induction s as [|a s IH]; simpl.
  { split; eauto. }
  case_decide.
  - split; [done|]. intros [x Hx]. injection Hx as _ Hnil.
    by apply fields_nonempty in Hnil.
  - rewrite IH. pose proof (fields_nonempty s) as Hne.
    destruct (fields c s) as [|x [|y l]]; [done|..].
    + split; eauto.
    + split; intros [z Hz]; discriminate.
Qed.

End split_by_byte.

(** ** Running the monad *)

Lemma new_calls_app σ σ' evs :
  calls σ' = calls σ ++ evs → new_calls σ σ' = evs.
Proof. unfold new_calls. intros ->. by rewrite drop_app_length. Qed.

Lemma new_calls_refl σ : new_calls σ σ = [].
Proof. apply new_calls_app. by rewrite app_nil_r. Qed.

Lemma colon_sep : ":" = String colon EmptyString.
Proof. reflexivity. Qed.

Lemma dash_sep : "-" = String dash EmptyString.
Proof. reflexivity. Qed.

Lemma frame_refl K σ : frame K σ σ.
Proof.
  repeat split; try done. exists []. by rewrite app_nil_r.
Qed.

Lemma frame_trans K σ1 σ2 σ3 :
  frame K σ1 σ2 → frame K σ2 σ3 → frame K σ1 σ3.
Proof.
  intros (Hf1 & Hc1 & Ha1 & [e1 He1] & Hk1) (Hf2 & Hc2 & Ha2 & [e2 He2] & Hk2).
  repeat split.
  - congruence.
  - congruence.
  - by etrans.
  - exists (e1 ++ e2). by rewrite He2, He1, app_assoc.
  - intros s Hs. by rewrite Hk2, Hk1.
Qed.

Lemma frame_mono (K K' : string → Prop) σ σ' :
  (∀ s, K s → K' s) → frame K σ σ' → frame K' σ σ'.
Proof.
  intros HK (? & ? & ? & ? & Hk). split_and!; [done..|].
  intros s Hs. apply Hk. intros HKs. apply Hs, HK, HKs.
Qed.

Lemma framed_bind {A B} K (m : M A) (k : A → M B) :
  framed K m → (∀ a, framed K (k a)) → framed K (m ≫= k).
Proof.
  intros Hm Hk σ. specialize (Hm σ).
  unfold mbind, M_bind. destruct (m σ) as [a σ1|e σ1|σ1]; simpl in *; try done.
  eapply frame_trans; [done|]. apply Hk.
Qed.

Lemma framed_ret {A} K (a : A) : framed K (mret a).
Proof. intros σ. apply frame_refl. Qed.

Lemma framed_get K : framed K get.
Proof. intros σ. apply frame_refl. Qed.

Lemma framed_panic {A} K e : framed K (@panic A e).
Proof. intros σ. apply frame_refl. Qed.

Lemma framed_fatal {A} K : framed K (@fatal A).
Proof. intros σ. apply frame_refl. Qed.

Lemma framed_record K e : framed K (modify (record e)).
Proof.
  intros σ. repeat split; try done. by exists [e].
Qed.

Lemma framed_set_catalog K f : framed K (modify (set_catalog f)).
Proof.
  intros σ. repeat split; try done. exists []. simpl. by rewrite app_nil_r.
Qed.

Lemma framed_set_kv K f : framed K (modify (set_kv f)).
Proof.
  intros σ. repeat split; try done. exists []. simpl. by rewrite app_nil_r.
Qed.

Lemma framed_cache_alter (K : string → Prop) f s :
  K s → framed K (modify (set_serviceCache (alter f s))).
Proof.
  intros HK σ. repeat split; try done.
  - exists []. by rewrite app_nil_r.
  - intros s' Hs'. simpl. apply lookup_alter_ne. naive_solver.
Qed.

Lemma framed_cache_insert (K : string → Prop) s b :
  K s → framed K (modify (set_serviceCache <[s := b]>)).
Proof.
  intros HK σ. repeat split; try done.
  - exists []. by rewrite app_nil_r.
  - intros s' Hs'. simpl. apply lookup_insert_ne. naive_solver.
Qed.

Lemma framed_cache_delete (K : string → Prop) s :
  K s → framed K (modify (set_serviceCache (delete s))).
Proof.
  intros HK σ. repeat split; try done.
  - exists []. by rewrite app_nil_r.
  - intros s' Hs'. simpl. apply lookup_delete_ne. naive_solver.
Qed.

Create HintDb framed discriminated.
#[local] Hint Resolve framed_ret framed_get framed_panic framed_fatal
  framed_record framed_set_catalog framed_set_kv : framed.

Ltac framed_step :=
  first
    [ solve [eauto with framed]
    | match goal with
      | |- framed _ (match ?x with _ => _ end) => destruct x
      | |- framed _ (if ?x then _ else _) => destruct x
      end
    | apply framed_bind; [|intros ?] ].

Lemma framed_index {A} K (l : list A) i : framed K (index l i).
Proof. unfold index. destruct (l !! i); eauto with framed. Qed.

Lemma framed_NewClient K cfg : framed K (NewClient cfg).
Proof. unfold NewClient. repeat framed_step. Qed.

Lemma framed_ServiceRegister K cl s : framed K (ServiceRegister cl s).
Proof. unfold ServiceRegister. repeat framed_step. Qed.

Lemma framed_ServiceDeregister K cl id : framed K (ServiceDeregister cl id).
Proof. unfold ServiceDeregister. repeat framed_step. Qed.

Lemma framed_CAS K cl p : framed K (CAS cl p).
Proof. unfold CAS. repeat framed_step. Qed.

Lemma framed_Delete K cl key : framed K (Delete cl key).
Proof. unfold Delete. repeat framed_step. Qed.

Lemma framed_agents_at K a : framed K (agents_at a).
Proof. unfold agents_at. repeat framed_step. Qed.

Lemma framed_newAgent K a : framed K (newAgent a).
Proof.
  unfold newAgent. case_decide; [eauto with framed|].
  apply framed_bind; [eauto with framed|]. intros σ. apply framed_NewClient.
Qed.

(** ** What the calls of the package compute *)

Lemma connect_run σ a :
  connect a σ =
  match agents (this σ) !! a with
  | Some _ => Ok tt σ
  | None =>
      if decide (a = "") then Ok tt (set_agents <[a := None]> σ)
      else if newclient_err (faults σ) (agentConfig (config (this σ)) a)
           then Fatal σ
           else Ok tt (set_agents
                         <[a := Some (mkClient (agentConfig (config (this σ)) a))]> σ)
  end.
Proof.
  unfold connect, mbind, M_bind, get.
  destruct (agents (this σ) !! a); [done|].
  unfold newAgent. case_decide; [done|].
  unfold NewClient, mbind, M_bind, get.
  by destruct (newclient_err _ _).
Qed.

Lemma upstreamAgent_run id σ :
  upstreamAgent id σ =
  match agent_of_identifier id with
  | Some a => Ok a σ
  | None => Panic (IndexOutOfRange 1 1) σ
  end.
Proof.
  unfold upstreamAgent, agent_of_identifier.
  rewrite colon_sep, Split_fields.
  pose proof (fields_nonempty colon id) as Hne.
  destruct (fields colon id) as [|x [|second rest]]; [done|done|].
  unfold mbind, M_bind. simpl.
  rewrite dash_sep, Contains_occurs.
  destruct (occurs dash second); [|done].
  rewrite Split_fields.
  pose proof (fields_nonempty dash second) as Hne2.
  by destruct (fields dash second).
Qed.

Lemma deRegisterUpstream_run svc σ :
  deRegisterUpstream svc σ =
  match agent_of_identifier (RID svc) with
  | None => Panic (IndexOutOfRange 1 1) σ
  | Some a =>
      let hkey := hkey_of (RName svc) a (RPort svc) in
      match agents (this σ) !! a with
      | None => Ok (None, true) σ
      | Some None => Panic NilDereference σ
      | Some (Some cl) =>
          match delete_err (faults σ) cl hkey with
          | Some e =>
              Ok (Some ("Unable to Delete key " +:+ hkey +:+ ": " +:+ e), false)
                 (record (EvDelete cl hkey (Some e)) σ)
          | None =>
              Ok (None, true)
                 (record (EvDelete cl hkey None) (set_kv (delete hkey) σ))
          end
      end
  end.
Proof.
  unfold deRegisterUpstream, mbind, M_bind. rewrite upstreamAgent_run.
  destruct (agent_of_identifier (RID svc)) as [a|]; [|done].
  unfold get. simpl.
  destruct (agents (this σ) !! a) as [[cl|]|]; [|done|done].
  unfold Delete, mbind, M_bind, get.
  by destruct (delete_err (faults σ) cl _).
Qed.

Lemma deregister_pooled a svc σ cl :
  agents (this σ) !! a = Some (Some cl) →
  deregister a svc σ =
  match deregister_err (faults σ) cl (RID svc) with
  | Some e => Ok (Some e) (record (EvServiceDeregister cl (RID svc) (Some e)) σ)
  | None =>
      Ok None (record (EvServiceDeregister cl (RID svc) None)
                 (set_catalog (delete (Address (consulapi.config cl), RID svc)) σ))
  end.
Proof.
  intros Hcl. unfold deregister, mbind, M_bind. rewrite connect_run, Hcl.
  unfold agents_at, mbind, M_bind, get, mret, M_ret. rewrite Hcl. simpl.
  unfold mbind, M_bind, get.
  by destruct (deregister_err (faults σ) cl _).
Qed.

Lemma registerUpstream_pooled svc σ cl :
  agents (this σ) !! Agent svc = Some (Some cl) →
  let p := {| Key := hkey_of (Name svc) (Agent svc) (Port svc);
              Value := upstream_value |} in
  registerUpstream svc σ =
  match cas_err (faults σ) cl p with
  | Some e =>
      Ok (Some ("Unable to CAS key " +:+ Key p +:+ ": " +:+ e), false)
         (record (EvCAS cl p false (Some e)) σ)
  | None =>
      match kv (remote σ) !! Key p with
      | Some _ => Ok (None, true) (record (EvCAS cl p false None) σ)
      | None =>
          Ok (None, true)
             (record (EvCAS cl p true None) (set_kv <[Key p := Value p]> σ))
      end
  end.
Proof.
  intros Hcl p. unfold registerUpstream, mbind, M_bind.
  unfold agents_at, mbind, M_bind, get, mret, M_ret. rewrite Hcl. simpl.
  unfold mbind, M_bind, get. fold p.
  destruct (cas_err (faults σ) cl p); [done|].
  simpl. by destruct (kv (remote σ) !! _).
Qed.

Lemma registration_RID svc : RID (registration svc) = ID svc.
Proof. unfold registration. by case_decide. Qed.

Lemma registration_RName svc : RName (registration svc) = Name svc.
Proof. unfold registration. by case_decide. Qed.

Lemma registration_RPort svc : RPort (registration svc) = Port svc.
Proof. unfold registration. by case_decide. Qed.

Lemma Register_hit σ svc e :
  serviceCache σ !! ID svc = Some e →
  Register svc σ = Ok tt (set_serviceCache (alter (set_marked true) (ID svc)) σ).
Proof.
  intros H. unfold Register, mbind, M_bind, get. by rewrite H.
Qed.

Lemma bind_run {A B} (m : M A) (k : A → M B) σ :
  (m ≫= k) σ =
  match m σ with
  | Ok a σ' => k a σ'
  | Panic e σ' => Panic e σ'
  | Fatal σ' => Fatal σ'
  end.
Proof. reflexivity. Qed.

Lemma Register_connected svc σ σ1 c :
  faults σ1 = faults σ → serviceCache σ1 = serviceCache σ →
  calls σ1 = calls σ → remote σ1 = remote σ →
  agents (this σ1) = pool_after σ (Agent svc) →
  agents (this σ1) !! Agent svc = Some c →
  RegisterMiss svc σ
    ((cl ← agents_at (Agent svc);
      err ← ServiceRegister cl (registration svc);
      match err with
      | Some _ => mret tt
      | None =>
          r ← registerUpstream svc;
          if negb r.2 then mret tt
          else
            modify (set_serviceCache
                      <[RID (registration svc) :=
                          newCacheEntry (registration svc) (Agent svc)]>);;
            CacheMark (RID (registration svc))
      end) σ1).
Proof.
  intros Hf Hc Hcalls Hr Hafter Hpool.
  unfold agents_at, mbind, M_bind, get, mret, M_ret. rewrite Hpool. simpl.
  destruct c as [cl|]; simpl; [|by constructor].
  unfold mbind, M_bind, get. rewrite Hf.
  destruct (register_err (faults σ) cl (registration svc)) as [e|] eqn:Hreg; simpl.
  { eapply RegisterMiss_catalog; simpl; rewrite ?Hcalls; eauto. }
  rewrite registerUpstream_pooled with (cl := cl) by done.
  simpl. rewrite Hf. fold (upstream_pair svc).
  destruct (cas_err (faults σ) cl (upstream_pair svc)) as [e|] eqn:Hcas; simpl.
  { eapply RegisterMiss_upstream; simpl; rewrite ?Hcalls, ?Hr, <- ?app_assoc; eauto. }
  rewrite Hr.
  destruct (kv (remote σ) !! hkey_of (Name svc) (Agent svc) (Port svc)) eqn:Hkv;
    simpl; unfold CacheMark, modify; simpl;
    (eapply RegisterMiss_done; simpl;
     rewrite ?registration_RID, ?alter_insert_eq, ?Hcalls, ?Hc, ?Hr, ?Hkv,
       <- ?app_assoc;
     rewrite ?bool_decide_eq_false_2, ?bool_decide_eq_true_2 by (simpl; congruence);
     eauto).
Qed.

Lemma Register_miss svc σ :
  serviceCache σ !! ID svc = None → RegisterMiss svc σ (Register svc σ).
Proof.
  intros Hmiss. unfold Register. rewrite bind_run. unfold get at 1.
  rewrite Hmiss, bind_run, connect_run.
  destruct (agents (this σ) !! Agent svc) as [c|] eqn:Hpool.
  { eapply Register_connected; try done. unfold pool_after. by rewrite Hpool. }
  case_decide as Hempty.
  { eapply Register_connected; try done; simpl.
    - unfold pool_after. by rewrite Hpool, decide_True.
    - by rewrite lookup_insert_eq. }
  destruct (newclient_err _ _) eqn:Hnc; [by constructor|].
  eapply Register_connected; try done; simpl.
  - unfold pool_after. by rewrite Hpool, decide_False.
  - by rewrite lookup_insert_eq.
Qed.

(** ** What the calls of the package leave alone *)

#[local] Hint Resolve framed_index framed_NewClient
  framed_ServiceRegister framed_ServiceDeregister framed_CAS framed_Delete
  framed_agents_at framed_newAgent : framed.

Lemma framed_connect K a : framed K (connect a).
Proof.
  intros σ. rewrite connect_run.
  destruct (agents (this σ) !! a) eqn:Hpool; [apply frame_refl|].
  assert (∀ c, frame K σ (set_agents <[a:=c]> σ)) as Hins.
  { intros c. split_and!; try done.
    - simpl. by apply insert_subseteq.
    - exists []. simpl. by rewrite app_nil_r. }
  case_decide; [apply Hins|].
  destruct (newclient_err _ _); [apply frame_refl|apply Hins].
Qed.
#[local] Hint Resolve framed_connect : framed.

Lemma framed_client K a : framed K (client a).
Proof. unfold client. case_decide; repeat framed_step. Qed.

Lemma framed_registerUpstream K svc : framed K (registerUpstream svc).
Proof. unfold registerUpstream. repeat framed_step. Qed.
#[local] Hint Resolve framed_registerUpstream : framed.

Lemma framed_CacheMark (K : string → Prop) s : K s → framed K (CacheMark s).
Proof. apply framed_cache_alter. Qed.

Lemma framed_Register svc : framed (λ s, s = ID svc) (Register svc).
Proof.
  unfold Register. apply framed_bind; [eauto with framed|]. intros σ.
  destruct (serviceCache σ !! ID svc).
  { by apply framed_CacheMark. }
  repeat framed_step.
  - apply framed_cache_insert, registration_RID.
  - apply framed_CacheMark, registration_RID.
Qed.

Lemma framed_upstreamAgent K id : framed K (upstreamAgent id).
Proof. unfold upstreamAgent. repeat framed_step. Qed.
#[local] Hint Resolve framed_upstreamAgent : framed.

Lemma framed_deRegisterUpstream K svc : framed K (deRegisterUpstream svc).
Proof. unfold deRegisterUpstream. repeat framed_step. Qed.

Lemma framed_deregister K a svc : framed K (deregister a svc).
Proof. unfold deregister. repeat framed_step. Qed.
#[local] Hint Resolve framed_deRegisterUpstream framed_deregister : framed.

Lemma framed_sweep_entry s b : framed (λ s', s' = s) (sweep_entry s b).
Proof.
  unfold sweep_entry, CacheIsValid, CacheProcessDeregister.
  repeat framed_step.
  - by apply framed_cache_alter.
  - by apply framed_cache_delete.
Qed.

Lemma framed_range order :
  framed (λ s, s ∈ order) (range_serviceCache order sweep_entry).
Proof.
  induction order as [|s rest IH]; simpl; [eauto with framed|].
  apply framed_bind; [eauto with framed|]. intros σ.
  apply framed_bind.
  - destruct (serviceCache σ !! s); [|eauto with framed].
    intros σ'. eapply frame_mono; [|apply framed_sweep_entry].
    intros ? ->. left.
  - intros _ σ'. eapply frame_mono; [|apply IH]. intros s' ?. by right.
Qed.

Lemma framed_RegisterAll svcs :
  framed (λ s, s ∈ ID <$> svcs) (RegisterAll svcs).
Proof.
  induction svcs as [|svc rest IH]; simpl; [eauto with framed|].
  apply framed_bind.
  - intros σ. eapply frame_mono; [|apply framed_Register].
    intros ? ->. left.
  - intros _ σ. eapply frame_mono; [|apply IH]. intros s' ?. by right.
Qed.

(** ** Registration *)

Lemma registrations_app id evs1 evs2 :
  registrations id (evs1 ++ evs2) =
  (registrations id evs1 + registrations id evs2)%nat.
Proof. unfold registrations. by rewrite List.filter_app, length_app. Qed.

Lemma new_calls_trans σ1 σ2 σ3 :
  (∃ evs, calls σ2 = calls σ1 ++ evs) → (∃ evs, calls σ3 = calls σ2 ++ evs) →
  new_calls σ1 σ3 = new_calls σ1 σ2 ++ new_calls σ2 σ3.
Proof.
  intros [e1 H1] [e2 H2].
  rewrite (new_calls_app _ _ _ H1), (new_calls_app _ _ _ H2).
  apply new_calls_app. by rewrite H2, H1, app_assoc.
Qed.

(** A call of [Register] makes at most one catalog registration round trip,
    for the identifier of its service, and none when the identifier is in
    the cache. *)
Lemma Register_registrations σ svc id :
  let n := registrations id (new_calls σ (state_of (Register svc σ))) in
  (n ≤ 1)%nat ∧ (id ≠ ID svc ∨ is_Some (serviceCache σ !! ID svc) → n = 0%nat).
Proof.
  cbv zeta.
  destruct (serviceCache σ !! ID svc) as [e|] eqn:Hc.
  { rewrite (Register_hit _ _ _ Hc). simpl.
    rewrite (new_calls_app _ _ []) by (simpl; by rewrite app_nil_r).
    unfold registrations. simpl. split; [lia|done]. }
  destruct (Register_miss svc σ Hc) as
    [σ1 _ _ _ Hcalls _| |cl e σ1 _ _ _ _ Hcalls _|cl e σ1 _ _ _ _ _ Hcalls _
    |cl σ1 _ _ _ _ _ Hcalls _]; simpl.
  - rewrite (new_calls_app _ _ []) by (by rewrite app_nil_r).
    unfold registrations. simpl. split; [lia|done].
  - rewrite new_calls_refl. unfold registrations. simpl. split; [lia|done].
  - rewrite (new_calls_app _ _ _ Hcalls). unfold registrations. simpl.
    rewrite registration_RID.
    destruct (decide (ID svc = id));
      [rewrite bool_decide_eq_true_2 by done
      |rewrite bool_decide_eq_false_2 by done];
      simpl; (split; [lia|]); intros [?|[? ?]]; congruence.
  - rewrite (new_calls_app _ _ _ Hcalls). unfold registrations. simpl.
    rewrite registration_RID.
    destruct (decide (ID svc = id));
      [rewrite bool_decide_eq_true_2 by done
      |rewrite bool_decide_eq_false_2 by done];
      simpl; (split; [lia|]); intros [?|[? ?]]; congruence.
  - rewrite (new_calls_app _ _ _ Hcalls). unfold registrations. simpl.
    rewrite registration_RID.
    destruct (decide (ID svc = id));
      [rewrite bool_decide_eq_true_2 by done
      |rewrite bool_decide_eq_false_2 by done];
      simpl; (split; [lia|]); intros [?|[? ?]]; congruence.
Qed.

(** [Register] never takes an entry out of the cache. *)
Lemma Register_keeps σ svc id :
  is_Some (serviceCache σ !! id) →
  is_Some (serviceCache (state_of (Register svc σ)) !! id).
Proof.
  intros Hid.
  destruct (decide (id = ID svc)) as [->|Hne].
  - destruct Hid as [e He]. rewrite (Register_hit _ _ _ He). simpl.
    rewrite lookup_alter_eq, He. by eexists.
  - destruct (framed_Register svc σ) as (_ & _ & _ & _ & Hk).
    by rewrite Hk.
Qed.

Lemma RegisterAll_present σ svcs id :
  is_Some (serviceCache σ !! id) →
  let σ' := state_of (RegisterAll svcs σ) in
  is_Some (serviceCache σ' !! id) ∧ registrations id (new_calls σ σ') = 0%nat.
Proof.
  revert σ. induction svcs as [|svc rest IH]; intros σ Hid; simpl.
  { by rewrite new_calls_refl. }
  pose proof (Register_keeps σ svc id Hid) as Hkeep.
  destruct (Register_registrations σ svc id) as [_ Hzero].
  assert (registrations id (new_calls σ (state_of (Register svc σ))) = 0%nat)
    as Hz.
  { apply Hzero. destruct (decide (id = ID svc)) as [->|]; auto. }
  pose proof (framed_Register svc σ) as (_ & _ & _ & Hpre & _).
  rewrite bind_run.
  destruct (Register svc σ) as [[] σ1|e σ1|σ1]; simpl in *; try done.
  destruct (IH σ1 Hkeep) as [Hk Hr]. split; [done|].
  pose proof (framed_RegisterAll rest σ1) as (_ & _ & _ & Hpre' & _).
  rewrite (new_calls_trans σ σ1) by done.
  rewrite registrations_app. lia.
Qed.

(** C2.  Idempotent registration: a call of [Register] for a service whose
    identifier has an entry in the cache makes no round trip and creates no
    entry; it only marks the existing entry and returns (pool and remote
    side as before).  So, while the entry exists, any further calls of
    [Register], for this identifier or others, make no catalog registration
    round trip for it and leave one entry under it; and from the call of
    [Register] that puts or finds the entry in the cache on, through any
    further calls, there is at most one catalog registration round trip for
    the identifier. *)
Theorem idempotent_registration σ svc e :
  serviceCache σ !! ID svc = Some e →
  Register svc σ =
    Ok tt (set_serviceCache (alter (set_marked true) (ID svc)) σ) ∧
  (let σ' := state_of (Register svc σ) in
   new_calls σ σ' = [] ∧
   serviceCache σ' = <[ID svc := set_marked true e]> (serviceCache σ) ∧
   dom (serviceCache σ') = dom (serviceCache σ) ∧
   this σ' = this σ ∧ remote σ' = remote σ) ∧
  (∀ svcs,
     let σ' := state_of (RegisterAll svcs σ) in
     is_Some (serviceCache σ' !! ID svc) ∧
     registrations (ID svc) (new_calls σ σ') = 0%nat) ∧
  (∀ σ0 svc0 σ1 svcs,
     Register svc0 σ0 = Ok tt σ1 →
     is_Some (serviceCache σ1 !! ID svc0) →
     (registrations (ID svc0)
        (new_calls σ0 (state_of (RegisterAll svcs σ1))) ≤ 1)%nat).
Proof.
  intros Hhit. rewrite (Register_hit _ _ _ Hhit). simpl.
  split_and!; try done.
  - apply new_calls_app. simpl. by rewrite app_nil_r.
  - apply map_eq. intros s. destruct (decide (s = ID svc)) as [->|].
    + by rewrite lookup_alter_eq, lookup_insert_eq, Hhit.
    + by rewrite lookup_alter_ne, lookup_insert_ne.
  - by rewrite dom_alter_L.
  - intros svcs. apply RegisterAll_present. by rewrite Hhit.
  - intros σ0 svc0 σ1 svcs Hrun Hin.
    destruct (Register_registrations σ0 svc0 (ID svc0)) as [Hone _].
    destruct (RegisterAll_present σ1 svcs (ID svc0) Hin) as [_ Hzero].
    pose proof (framed_Register svc0 σ0) as (_ & _ & _ & Hpre & _).
    pose proof (framed_RegisterAll svcs σ1) as (_ & _ & _ & Hpre' & _).
    rewrite Hrun in Hone, Hpre. simpl in Hone, Hpre.
    rewrite (new_calls_trans σ0 σ1) by done.
    rewrite registrations_app. lia.
Qed.

Lemma registerUpstream_nil svc σ :
  default None (agents (this σ) !! Agent svc) = None →
  registerUpstream svc σ = Panic NilDereference σ.
Proof.
  intros Hnil. unfold registerUpstream. rewrite bind_run.
  unfold agents_at. rewrite bind_run. unfold get at 1, mret, M_ret.
  by rewrite Hnil.
Qed.

(** C4.  CAS-exists is not an error.  When the key of the backend metadata
    record already exists and the check-and-set goes through in transport,
    [registerUpstream] returns [(nil, true)], and the record under the key
    is the one that was there; an error is returned only when the
    check-and-set itself fails in transport, and then it always is. *)
Theorem cas_exists_is_not_an_error σ svc :
  (∀ cl v,
     agents (this σ) !! Agent svc = Some (Some cl) →
     cas_err (faults σ) cl (upstream_pair svc) = None →
     kv (remote σ) !! Key (upstream_pair svc) = Some v →
     registerUpstream svc σ =
       Ok (None, true) (record (EvCAS cl (upstream_pair svc) false None) σ) ∧
     kv (remote (state_of (registerUpstream svc σ))) !! Key (upstream_pair svc)
       = Some v) ∧
  (∀ err ret σ',
     registerUpstream svc σ = Ok (Some err, ret) σ' →
     ret = false ∧
     ∃ cl e,
       agents (this σ) !! Agent svc = Some (Some cl) ∧
       cas_err (faults σ) cl (upstream_pair svc) = Some e ∧
       err = "Unable to CAS key " +:+ Key (upstream_pair svc) +:+ ": " +:+ e ∧
       σ' = record (EvCAS cl (upstream_pair svc) false (Some e)) σ) ∧
  (∀ cl e,
     agents (this σ) !! Agent svc = Some (Some cl) →
     cas_err (faults σ) cl (upstream_pair svc) = Some e →
     registerUpstream svc σ =
       Ok (Some ("Unable to CAS key " +:+ Key (upstream_pair svc) +:+ ": " +:+ e),
           false)
          (record (EvCAS cl (upstream_pair svc) false (Some e)) σ)).
Proof.
  split_and!.
  - intros cl v Hcl Herr Hkv.
    rewrite (registerUpstream_pooled _ _ _ Hcl). cbv zeta.
    fold (upstream_pair svc). rewrite Herr, Hkv. done.
  - intros err ret σ' Hrun.
    destruct (agents (this σ) !! Agent svc) as [[cl|]|] eqn:Hcl.
    + rewrite (registerUpstream_pooled _ _ _ Hcl) in Hrun. cbv zeta in Hrun.
      fold (upstream_pair svc) in Hrun.
      destruct (cas_err (faults σ) cl (upstream_pair svc)) as [e|] eqn:Herr.
      * injection Hrun as <- <- <-. eauto 10.
      * destruct (kv (remote σ) !! Key (upstream_pair svc)); discriminate.
    + rewrite registerUpstream_nil in Hrun by (by rewrite Hcl). discriminate.
    + rewrite registerUpstream_nil in Hrun by (by rewrite Hcl). discriminate.
  - intros cl e Hcl Herr.
    rewrite (registerUpstream_pooled _ _ _ Hcl). cbv zeta.
    fold (upstream_pair svc). by rewrite Herr.
Qed.

Lemma unspaced_upstream_value : unspaced upstream_value = spec_value.
Proof. reflexivity. Qed.

(** C8, as amended.  Backend metadata record format: with a connection
    for the service's agent in the pool, [registerUpstream] makes one
    check-and-set round trip, for exactly the key
    [upstreams/<name>/<agent>:<port>] built from the service's [Name],
    [Agent] and [Port], with the fixed value
    [{"weight":1, "max_fails":2, "fail_timeout":10}], which has a space
    after each comma and is the spec's value but for these spaces; that
    value is what the store holds afterwards when the key was free and the
    write went through; and two services that agree on name, agent and port
    give the same round trip. *)
Theorem upstream_record_format σ svc cl :
  agents (this σ) !! Agent svc = Some (Some cl) →
  let key := "upstreams/" +:+ Name svc +:+ "/" +:+ Agent svc +:+ ":" +:+
             pretty (Port svc) in
  let value := "{" +:+ dq +:+ "weight" +:+ dq +:+ ":1, " +:+
               dq +:+ "max_fails" +:+ dq +:+ ":2, " +:+
               dq +:+ "fail_timeout" +:+ dq +:+ ":10}" in
  let σ' := state_of (registerUpstream svc σ) in
  (∃ work err,
     new_calls σ σ' = [EvCAS cl {| Key := key; Value := value |} work err]) ∧
  (cas_err (faults σ) cl {| Key := key; Value := value |} = None →
   kv (remote σ) !! key = None →
   kv (remote σ') !! key = Some value) ∧
  unspaced value = spec_value ∧
  (∀ svc',
     Name svc' = Name svc → Agent svc' = Agent svc → Port svc' = Port svc →
     new_calls σ (state_of (registerUpstream svc' σ)) = new_calls σ σ').
Proof.
  intros Hcl key value σ'.
  assert (Hp : upstream_pair svc = {| Key := key; Value := value |}) by done.
  assert (Hrun : ∀ svc0,
    Name svc0 = Name svc → Agent svc0 = Agent svc → Port svc0 = Port svc →
    ∃ work err σ1,
      state_of (registerUpstream svc0 σ) = σ1 ∧
      calls σ1 = calls σ ++ [EvCAS cl {| Key := key; Value := value |} work err] ∧
      work = match cas_err (faults σ) cl {| Key := key; Value := value |} with
             | Some _ => false
             | None => bool_decide (kv (remote σ) !! key = None)
             end ∧
      err = cas_err (faults σ) cl {| Key := key; Value := value |} ∧
      (err = None → kv (remote σ) !! key = None →
       kv (remote σ1) !! key = Some value)).
  { intros svc0 Hn Ha Hpt.
    assert (Hcl0 : agents (this σ) !! Agent svc0 = Some (Some cl)) by (by rewrite Ha).
    rewrite (registerUpstream_pooled _ _ _ Hcl0). cbv zeta.
    rewrite Hn, Ha, Hpt. fold (upstream_pair svc). rewrite Hp.
    destruct (cas_err _ _ _) as [e|] eqn:Herr.
    { do 3 eexists. split_and!; try done. }
    simpl. destruct (kv (remote σ) !! key) eqn:Hkv.
    - do 3 eexists. split_and!; try done.
    - do 3 eexists. split_and!; try done. intros _ _. simpl.
      by rewrite lookup_insert_eq. }
  destruct (Hrun svc) as (w & e & σ1 & Hσ1 & Hcalls & Hw & He & Hkv); [done..|].
  subst σ'. rewrite Hσ1. split_and!.
  - exists w, e. by apply new_calls_app.
  - intros Herr. apply Hkv. congruence.
  - reflexivity.
  - intros svc' Hn Ha Hpt.
    destruct (Hrun svc') as (w' & e' & σ2 & -> & Hcalls' & Hw' & He' & _); [done..|].
    rewrite (new_calls_app _ _ _ Hcalls), (new_calls_app _ _ _ Hcalls').
    congruence.
Qed.

(** ** The sweep, entry by entry *)

Lemma sweep_entry_marked s b σ :
  serviceCache σ !! s = Some b → marked b = true →
  sweep_entry s b σ = Ok tt (set_serviceCache (alter (set_marked false) s) σ).
Proof.
  intros Hs Hm. unfold sweep_entry, CacheIsValid.
  rewrite !bind_run. unfold get at 1, mret, M_ret, isStale.
  by rewrite Hs, Hm.
Qed.

Lemma sweep_entry_stale s b σ :
  serviceCache σ !! s = Some b → marked b = false →
  sweep_entry s b σ =
  match deregister (agent b) (service b) σ with
  | Ok (Some _) σ1 => Ok tt σ1
  | Ok None σ1 =>
      match deRegisterUpstream (service b) σ1 with
      | Ok _ σ2 => Ok tt (set_serviceCache (delete s) σ2)
      | Panic e σ2 => Panic e σ2
      | Fatal σ2 => Fatal σ2
      end
  | Panic e σ1 => Panic e σ1
  | Fatal σ1 => Fatal σ1
  end.
Proof.
  intros Hs Hm. unfold sweep_entry, CacheIsValid.
  rewrite !bind_run. unfold get at 1, mret, M_ret, isStale.
  rewrite Hs, Hm. simpl. rewrite bind_run.
  destruct (deregister _ _ σ) as [[e|] σ1|e σ1|σ1]; try done.
Qed.

Lemma range_cons s rest body σ :
  range_serviceCache (s :: rest) body σ =
  match serviceCache σ !! s with
  | Some b =>
      match body s b σ with
      | Ok _ σ1 => range_serviceCache rest body σ1
      | Panic e σ1 => Panic e σ1
      | Fatal σ1 => Fatal σ1
      end
  | None => range_serviceCache rest body σ
  end.
Proof.
  simpl. rewrite bind_run. unfold get at 1. rewrite bind_run.
  by destruct (serviceCache σ !! s).
Qed.

(** ** Reachable states *)

Lemma pool_after_wf σ a cl :
  pool_wf σ → pool_after σ a !! a = Some (Some cl) →
  ∀ a' c, pool_after σ a !! a' = Some c →
    a' ≠ "" ∧ c = Some (mkClient (agentConfig (config (this σ)) a')).
Proof.
  intros Hwf Ha a' c. unfold pool_after in *.
  destruct (agents (this σ) !! a) eqn:Hpool; [apply Hwf|].
  rewrite lookup_insert_eq in Ha.
  destruct (decide (a = a')) as [<-|Hne].
  - rewrite lookup_insert_eq. case_decide; [done|]. by intros [= <-].
  - rewrite lookup_insert_ne by done. apply Hwf.
Qed.

Lemma pool_after_subseteq σ a : agents (this σ) ⊆ pool_after σ a.
Proof.
  unfold pool_after. destruct (agents (this σ) !! a) eqn:Hpool; [done|].
  by apply insert_subseteq.
Qed.

Lemma cache_wf_weaken σ σ' :
  agents (this σ) ⊆ agents (this σ') → serviceCache σ' = serviceCache σ →
  cache_wf σ → cache_wf σ'.
Proof.
  intros Hsub Hc Hwf s b. rewrite Hc. intros Hs.
  destruct (Hwf s b Hs) as [? Hin]. split; [done|].
  by eapply lookup_weaken_is_Some.
Qed.

Lemma client_wf σ a cl σ' :
  client a σ = Ok cl σ' → pool_wf σ → cache_wf σ → pool_wf σ' ∧ cache_wf σ'.
Proof.
  unfold client. case_decide as Ha; [intros [= _ <-] ??; by split|].
  rewrite bind_run, connect_run.
  destruct (agents (this σ) !! a) eqn:Hpool.
  { unfold agents_at. rewrite bind_run. unfold get at 1, mret, M_ret.
    intros [= _ <-] ??; by split. }
  rewrite decide_False by done.
  destruct (newclient_err _ _); [done|].
  unfold agents_at. rewrite bind_run. unfold get at 1, mret, M_ret.
  intros [= _ <-] Hp Hc. split.
  - intros a' c. simpl. destruct (decide (a = a')) as [<-|Hne].
    + rewrite lookup_insert_eq. by intros [= <-].
    + rewrite lookup_insert_ne by done. apply Hp.
  - apply (cache_wf_weaken σ); [|done..]. simpl. by apply insert_subseteq.
Qed.

Lemma Register_wf σ svc σ' :
  Register svc σ = Ok tt σ' → pool_wf σ → cache_wf σ → pool_wf σ' ∧ cache_wf σ'.
Proof.
  intros Hrun Hp Hc.
  destruct (serviceCache σ !! ID svc) as [e|] eqn:Hhit.
  { rewrite (Register_hit _ _ _ Hhit) in Hrun. injection Hrun as <-.
    split; [done|]. intros s b. simpl.
    destruct (decide (s = ID svc)) as [->|Hne].
    - rewrite lookup_alter_eq, Hhit. simpl. intros [= <-]. simpl.
      by apply (Hc (ID svc) e).
    - rewrite lookup_alter_ne by done. apply Hc. }
  pose proof (framed_Register svc σ) as (_ & Hcfg & Hsub & _ & _).
  pose proof (Register_miss svc σ Hhit) as Hcases.
  rewrite Hrun in Hcases, Hcfg, Hsub. simpl in Hcfg, Hsub.
  assert (Hpool : ∀ cl,
    agents (this σ') = pool_after σ (Agent svc) →
    agents (this σ') !! Agent svc = Some (Some cl) → pool_wf σ').
  { intros cl Hafter Hcl a c. rewrite Hcfg, Hafter.
    eapply pool_after_wf; [done|]. by rewrite <- Hafter. }
  inversion Hcases as
    [| |cl e σ1 Hafter Hcl _ Hcache _ _|cl e σ1 Hafter Hcl _ _ Hcache _ _
    |cl σ1 Hafter Hcl _ _ Hcache _ _ _]; subst.
  - split; [by eapply Hpool|]. by apply (cache_wf_weaken σ).
  - split; [by eapply Hpool|]. by apply (cache_wf_weaken σ).
  - split; [by eapply Hpool|]. intros s b. rewrite Hcache.
    destruct (decide (s = ID svc)) as [->|Hne].
    + rewrite lookup_insert_eq. intros [= <-]. simpl.
      split; [apply registration_RID|]. by rewrite Hcl.
    + rewrite lookup_insert_ne by done. intros Hs.
      destruct (Hc s b Hs) as [? Hin]. split; [done|].
      by eapply lookup_weaken_is_Some.
Qed.

Lemma sweep_entry_wf s b σ σ' :
  serviceCache σ !! s = Some b →
  sweep_entry s b σ = Ok tt σ' →
  pool_wf σ → cache_wf σ → pool_wf σ' ∧ cache_wf σ'.
Proof.
  intros Hs Hrun Hp Hc.
  destruct (marked b) eqn:Hm.
  { rewrite (sweep_entry_marked _ _ _ Hs Hm) in Hrun. injection Hrun as <-.
    split; [done|]. intros s' b'. simpl.
    destruct (decide (s' = s)) as [->|Hne].
    - rewrite lookup_alter_eq, Hs. simpl. intros [= <-]. simpl.
      by apply (Hc s b).
    - rewrite lookup_alter_ne by done. apply Hc. }
  rewrite (sweep_entry_stale _ _ _ Hs Hm) in Hrun.
  destruct (Hc s b Hs) as [_ [c Hin]].
  destruct (Hp _ _ Hin) as [_ ->].
  rewrite (deregister_pooled _ _ _ _ Hin) in Hrun.
  destruct (deregister_err _ _ _) as [e|]; [by injection Hrun as <-|].
  rewrite deRegisterUpstream_run in Hrun.
  destruct (agent_of_identifier _) as [a|]; [|done]. cbv zeta in Hrun. simpl in Hrun.
  assert (Hdel : ∀ σ2, this σ2 = this σ →
            serviceCache σ2 = serviceCache σ →
            pool_wf (set_serviceCache (delete s) σ2) ∧
            cache_wf (set_serviceCache (delete s) σ2)).
  { intros σ2 Ht Hcache. split.
    - intros a' c'. simpl. rewrite Ht. apply Hp.
    - intros s' b'. simpl. rewrite Ht, Hcache.
      destruct (decide (s' = s)) as [->|Hne].
      + by rewrite lookup_delete_eq.
      + rewrite lookup_delete_ne by done. apply Hc. }
  destruct (agents (this σ) !! a) as [[cl|]|]; [| done |].
  - destruct (delete_err _ _ _); injection Hrun as <-; by apply Hdel.
  - injection Hrun as <-. by apply Hdel.
Qed.

Lemma range_wf order σ σ' :
  range_serviceCache order sweep_entry σ = Ok tt σ' →
  pool_wf σ → cache_wf σ → pool_wf σ' ∧ cache_wf σ'.
Proof.
  revert σ. induction order as [|s rest IH]; intros σ Hrun Hp Hc.
  { by injection Hrun as <-. }
  rewrite range_cons in Hrun.
  destruct (serviceCache σ !! s) as [b|] eqn:Hs; [|by eapply IH].
  destruct (sweep_entry s b σ) as [[] σ1|e σ1|σ1] eqn:Hbody; [|done..].
  destruct (sweep_entry_wf _ _ _ _ Hs Hbody Hp Hc). by eapply IH.
Qed.

(** Every reachable state is well formed. *)
Lemma reachable_wf σ : reachable σ → pool_wf σ ∧ cache_wf σ.
Proof.
  induction 1 as [cfg r f|σ a cl σ' _ [IHp IHc] Hrun|σ svc σ' _ [IHp IHc] Hrun
                 |σ order σ' _ [IHp IHc] _ Hrun|σ r f _ [IHp IHc]].
  - split; intros ??; simpl; by rewrite lookup_empty.
  - by eapply client_wf.
  - by eapply Register_wf.
  - by eapply range_wf.
  - done.
Qed.

(** ** What backs a cache entry *)

Lemma shrinks_refl σ : shrinks σ σ.
Proof. intros s b Hs. eauto. Qed.

Lemma shrinks_trans σ1 σ2 σ3 : shrinks σ1 σ2 → shrinks σ2 σ3 → shrinks σ1 σ3.
Proof.
  intros H12 H23 s b3 Hs3.
  destruct (H23 s b3 Hs3) as (b2 & Hs2 & ? & ?).
  destruct (H12 s b2 Hs2) as (b1 & Hs1 & ? & ?).
  exists b1. split_and!; congruence.
Qed.

Lemma shrinking_bind {A B} (m : M A) (k : A → M B) :
  shrinking m → (∀ a, shrinking (k a)) → shrinking (m ≫= k).
Proof.
  intros Hm Hk σ. specialize (Hm σ). rewrite bind_run.
  destruct (m σ) as [a σ1|e σ1|σ1]; simpl in *; try done.
  eapply shrinks_trans; [done|]. apply Hk.
Qed.

(** A call that touches no cache entry at all. *)
Lemma shrinking_framed {A} (m : M A) : framed (λ _, False) m → shrinking m.
Proof.
  intros Hm σ s b Hs. destruct (Hm σ) as (_ & _ & _ & _ & Hk).
  rewrite Hk in Hs by tauto. eauto.
Qed.

Lemma shrinking_mark m s :
  shrinking (modify (set_serviceCache (alter (set_marked m) s))).
Proof.
  intros σ s' b'. simpl. destruct (decide (s' = s)) as [->|Hne].
  - rewrite lookup_alter_eq. destruct (serviceCache σ !! s) as [b|]; [|done].
    simpl. intros [= <-]. eauto.
  - rewrite lookup_alter_ne by done. eauto.
Qed.

Lemma shrinking_delete s : shrinking (modify (set_serviceCache (delete s))).
Proof.
  intros σ s' b'. simpl. destruct (decide (s' = s)) as [->|Hne].
  - by rewrite lookup_delete_eq.
  - rewrite lookup_delete_ne by done. eauto.
Qed.

Lemma shrinking_sweep_entry s b : shrinking (sweep_entry s b).
Proof.
  unfold sweep_entry.
  apply shrinking_bind.
  { apply shrinking_framed. unfold CacheIsValid. repeat framed_step. }
  intros [].
  { apply shrinking_mark. }
  apply shrinking_bind; [apply shrinking_framed, framed_deregister|].
  intros [e|]; [apply shrinking_framed, framed_ret|].
  apply shrinking_bind; [apply shrinking_framed, framed_deRegisterUpstream|].
  intros _. apply shrinking_delete.
Qed.

Lemma shrinking_range order : shrinking (range_serviceCache order sweep_entry).
Proof.
  induction order as [|s rest IH]; simpl.
  { apply shrinking_framed, framed_ret. }
  apply shrinking_bind; [apply shrinking_framed, framed_get|]. intros σ.
  apply shrinking_bind; [|done].
  destruct (serviceCache σ !! s).
  - apply shrinking_sweep_entry.
  - apply shrinking_framed, framed_ret.
Qed.

Lemma cache_backed_shrinks σ σ' :
  (∃ evs, calls σ' = calls σ ++ evs) → shrinks σ σ' →
  cache_backed σ → cache_backed σ'.
Proof.
  intros [evs Hcalls] Hsh Hb s b' Hs'.
  destruct (Hsh s b' Hs') as (b & Hs & -> & ->).
  destruct (Hb s b Hs) as (cl & w & Hreg & Hcas).
  exists cl, w. rewrite Hcalls. split; apply elem_of_app; by left.
Qed.

Lemma Register_backed σ svc σ' :
  Register svc σ = Ok tt σ' → cache_backed σ → cache_backed σ'.
Proof.
  intros Hrun Hb.
  destruct (serviceCache σ !! ID svc) as [e|] eqn:Hhit.
  { rewrite (Register_hit _ _ _ Hhit) in Hrun. injection Hrun as <-.
    apply (cache_backed_shrinks σ); [exists []; simpl; by rewrite app_nil_r| |done].
    apply (shrinking_mark true (ID svc) σ). }
  pose proof (Register_miss svc σ Hhit) as Hcases. rewrite Hrun in Hcases.
  assert (Hsame : ∀ evs, serviceCache σ' = serviceCache σ →
                         calls σ' = calls σ ++ evs → cache_backed σ').
  { intros evs Hc Hcalls. apply (cache_backed_shrinks σ); [by exists evs| |done].
    intros s b. rewrite Hc. eauto. }
  inversion Hcases as
    [| |cl e σ1 _ _ _ Hcache Hcalls _|cl e σ1 _ _ _ _ Hcache Hcalls _
    |cl σ1 _ _ _ _ Hcache Hcalls _ _]; subst.
  - by eapply Hsame.
  - by eapply Hsame.
  - intros s b. rewrite Hcache, Hcalls.
    destruct (decide (s = ID svc)) as [->|Hne].
    + rewrite lookup_insert_eq. intros [= <-]. simpl.
      rewrite registration_RName, registration_RPort.
      do 2 eexists. split; apply elem_of_app; right.
      * left.
      * right. left.
    + rewrite lookup_insert_ne by done. intros Hs.
      destruct (Hb s b Hs) as (cl' & w & ? & ?).
      exists cl', w. split; apply elem_of_app; by left.
Qed.

Lemma client_backed σ a cl σ' :
  client a σ = Ok cl σ' → cache_backed σ → cache_backed σ'.
Proof.
  intros Hrun. pose proof (framed_client (λ _, False) a σ) as (_ & _ & _ & Hpre & Hk).
  rewrite Hrun in Hpre, Hk. simpl in Hpre, Hk.
  apply cache_backed_shrinks; [done|].
  intros s b Hs. rewrite Hk in Hs by tauto. eauto.
Qed.

(** In every reachable state the cache is backed. *)
Lemma reachable_backed σ : reachable σ → cache_backed σ.
Proof.
  induction 1 as [cfg r f|σ a cl σ' _ IH Hrun|σ svc σ' _ IH Hrun
                 |σ order σ' _ IH _ Hrun|σ r f _ IH].
  - intros s b. simpl. by rewrite lookup_empty.
  - by eapply client_backed.
  - by eapply Register_backed.
  - pose proof (framed_range order σ) as (_ & _ & _ & Hpre & _).
    pose proof (shrinking_range order σ) as Hsh.
    unfold Deregister in Hrun. rewrite Hrun in Hpre, Hsh.
    by apply (cache_backed_shrinks σ).
  - done.
Qed.

(** C3.  Registration is atomic with respect to the cache.  For a service
    whose identifier is not in the cache: if the catalog registration call
    fails, [Register] returns with the cache unchanged; if a backend
    metadata write fails, which happens only after a catalog registration
    that went through, [Register] returns with the cache unchanged; and if
    the cache is changed at all, [Register] has returned after exactly a
    successful catalog registration and a successful backend metadata
    write, and the change is the one new, marked entry.  So, in every state
    the process can reach, every cache entry is backed by a catalog
    registration of its payload and a backend metadata write for its name,
    agent and port that both went through. *)
Theorem registration_atomic :
  (∀ σ svc,
     serviceCache σ !! ID svc = None →
       let out := Register svc σ in
       let σ' := state_of out in
       (∀ cl e,
          EvServiceRegister cl (registration svc) (Some e) ∈ new_calls σ σ' →
          out = Ok tt σ' ∧ serviceCache σ' = serviceCache σ) ∧
       (∀ cl p work e,
          EvCAS cl p work (Some e) ∈ new_calls σ σ' →
          out = Ok tt σ' ∧ serviceCache σ' = serviceCache σ ∧
          EvServiceRegister cl (registration svc) None ∈ new_calls σ σ') ∧
       (serviceCache σ' ≠ serviceCache σ →
          ∃ cl work,
            out = Ok tt σ' ∧
            new_calls σ σ' = [EvServiceRegister cl (registration svc) None;
                              EvCAS cl (upstream_pair svc) work None] ∧
            serviceCache σ' =
              <[ID svc := set_marked true (newCacheEntry (registration svc) (Agent svc))]>
                (serviceCache σ))) ∧
  (∀ σ, reachable σ → cache_backed σ).
Proof.
  split; [|apply reachable_backed].
  intros σ svc.
  intros Hmiss out σ'. subst out σ'.
  destruct (Register_miss svc σ Hmiss) as
    [σ1 _ _ Hc Hcalls _| |cl e σ1 _ _ _ Hc Hcalls _
    |cl e σ1 _ _ _ _ Hc Hcalls _|cl σ1 _ _ _ _ Hc Hcalls _]; simpl.
  - rewrite (new_calls_app _ _ []) by (by rewrite app_nil_r).
    split_and!; [intros ?? []%elem_of_nil|intros ???? []%elem_of_nil|done].
  - rewrite new_calls_refl.
    split_and!; [intros ?? []%elem_of_nil|intros ???? []%elem_of_nil|done].
  - rewrite (new_calls_app _ _ _ Hcalls). split_and!; [done| |done].
    intros ???? Hin. apply list_elem_of_singleton in Hin. discriminate.
  - rewrite (new_calls_app _ _ _ Hcalls). split_and!; [done| |done].
    intros cl' p w e' Hin. split_and!; [done..|].
    apply elem_of_cons in Hin as [?|Hin]; [discriminate|].
    apply list_elem_of_singleton in Hin. injection Hin as <- _ _ _. left.
  - rewrite (new_calls_app _ _ _ Hcalls). split_and!.
    + intros cl' e' Hin.
      apply elem_of_cons in Hin as [?|Hin]; [discriminate|].
      apply list_elem_of_singleton in Hin. discriminate.
    + intros cl' p w e' Hin.
      apply elem_of_cons in Hin as [?|Hin]; [discriminate|].
      apply list_elem_of_singleton in Hin. discriminate.
    + intros _. eauto.
Qed.

(** C10.  [Register] bypasses the pool's guard against the empty address:
    in every state the process can reach, for a service whose [Agent] is
    the empty string and whose identifier is not in the cache, [Register]
    stores the [nil] client that [newAgent] returns for the empty address
    in the pool and then faults on it in the catalog registration call, with
    no round trip made and the cache as it was; [client], for the same
    address, returns [nil] and leaves the state alone. *)
Theorem register_empty_agent σ svc :
  reachable σ → Agent svc = "" → serviceCache σ !! ID svc = None →
  Register svc σ = Panic NilDereference (set_agents <["" := None]> σ) ∧
  client (Agent svc) σ = Ok None σ.
Proof.
  intros Hreach Hempty Hmiss.
  destruct (reachable_wf _ Hreach) as [Hp _].
  assert (Hnone : agents (this σ) !! "" = None).
  { destruct (agents (this σ) !! "") eqn:Hpool; [|done].
    by destruct (Hp _ _ Hpool). }
  split.
  - unfold Register. rewrite bind_run. unfold get at 1.
    rewrite Hmiss, bind_run, connect_run, Hempty, Hnone. simpl.
    unfold agents_at. rewrite !bind_run. unfold get at 1, mret, M_ret.
    simpl. by rewrite lookup_insert_eq.
  - unfold client. by rewrite Hempty.
Qed.

(** ** Identifiers and their agent *)

Lemma agent_of_identifier_colon id :
  Strings.Contains id ":" = true ↔ is_Some (agent_of_identifier id).
Proof.
  rewrite colon_sep, Contains_occurs. unfold agent_of_identifier.
  pose proof (fields_single colon id) as Hsingle.
  pose proof (fields_nonempty colon id) as Hne.
  destruct (fields colon id) as [|x [|y l]]; [done|..].
  - split; [|by intros [? ?]]. intros Hocc.
    assert (occurs colon id = false) as Hno by (apply Hsingle; eauto).
    congruence.
  - split; [by eauto|]. intros _.
    destruct (occurs colon id); [done|].
    destruct Hsingle as [Hsingle _].
    destruct (Hsingle eq_refl) as [z Hz]. discriminate.
Qed.

Lemma agent_of_identifier_None id :
  Strings.Contains id ":" = false ↔ agent_of_identifier id = None.
Proof.
  pose proof (agent_of_identifier_colon id) as H.
  destruct (Strings.Contains id ":"), (agent_of_identifier id) as [a|];
    split; try done.
  - intros _. destruct H as [H _]. by destruct (H eq_refl).
  - intros _. destruct H as [_ H]. assert (false = true) by eauto. done.
Qed.

(** C7.  Agent identifier parsing at deregistration: the agent name
    [deRegisterUpstream] computes with [strings.Split] and
    [strings.Contains] from the identifier of the stored registration is the
    second of the identifier's fields between colons and, if that field
    contains a dash, the first of its fields between dashes (and there is
    an out-of-range fault when there is no second field); the key the
    deletion is asked for is built from that name; and the identifier
    [web-1:agentA-3] gives the agent [agentA]. *)
Theorem agent_identifier_parsing (svc : AgentServiceRegistration) σ :
  upstreamAgent (RID svc) σ =
    match agent_of_identifier (RID svc) with
    | Some a => Ok a σ
    | None => Panic (IndexOutOfRange 1 1) σ
    end ∧
  (∀ a cl,
     agent_of_identifier (RID svc) = Some a →
     agents (this σ) !! a = Some (Some cl) →
     let hkey := hkey_of (RName svc) a (RPort svc) in
     new_calls σ (state_of (deRegisterUpstream svc σ)) =
       [EvDelete cl hkey (delete_err (faults σ) cl hkey)]) ∧
  agent_of_identifier "web-1:agentA-3" = Some "agentA" ∧
  upstreamAgent "web-1:agentA-3" σ = Ok "agentA" σ.
Proof.
  split_and!.
  - apply upstreamAgent_run.
  - intros a cl Ha Hcl hkey. rewrite deRegisterUpstream_run, Ha. cbv zeta.
    rewrite Hcl. fold hkey.
    destruct (delete_err (faults σ) cl hkey); by apply new_calls_app.
  - reflexivity.
  - by rewrite upstreamAgent_run.
Qed.


(** ** The sweep *)

Lemma new_calls_elem_l σ1 σ2 σ3 ev :
  (∃ evs, calls σ2 = calls σ1 ++ evs) → (∃ evs, calls σ3 = calls σ2 ++ evs) →
  ev ∈ new_calls σ1 σ2 → ev ∈ new_calls σ1 σ3.
Proof.
  intros H1 H2 Hin. rewrite (new_calls_trans σ1 σ2 σ3) by done.
  apply elem_of_app. by left.
Qed.

Lemma new_calls_elem_r σ1 σ2 σ3 ev :
  (∃ evs, calls σ2 = calls σ1 ++ evs) → (∃ evs, calls σ3 = calls σ2 ++ evs) →
  ev ∈ new_calls σ2 σ3 → ev ∈ new_calls σ1 σ3.
Proof.
  intros H1 H2 Hin. rewrite (new_calls_trans σ1 σ2 σ3) by done.
  apply elem_of_app. by right.
Qed.

(** The step for a stale entry whose catalog deregistration fails: the call
    is the only thing that happens. *)
Lemma sweep_entry_failed s b σ cl e :
  serviceCache σ !! s = Some b → marked b = false →
  agents (this σ) !! agent b = Some (Some cl) →
  deregister_err (faults σ) cl (RID (service b)) = Some e →
  sweep_entry s b σ =
    Ok tt (record (EvServiceDeregister cl (RID (service b)) (Some e)) σ).
Proof.
  intros Hs Hm Hcl Herr.
  by rewrite (sweep_entry_stale _ _ _ Hs Hm), (deregister_pooled _ _ _ _ Hcl), Herr.
Qed.

(** The step for a stale entry whose catalog deregistration succeeds. *)
Lemma sweep_entry_deregistered s b σ cl :
  serviceCache σ !! s = Some b → marked b = false →
  agents (this σ) !! agent b = Some (Some cl) →
  deregister_err (faults σ) cl (RID (service b)) = None →
  let σ1 := record (EvServiceDeregister cl (RID (service b)) None)
              (set_catalog (delete (Address (consulapi.config cl), RID (service b))) σ) in
  sweep_entry s b σ =
    match agent_of_identifier (RID (service b)) with
    | None => Panic (IndexOutOfRange 1 1) σ1
    | Some a =>
        let hkey := hkey_of (RName (service b)) a (RPort (service b)) in
        match agents (this σ) !! a with
        | None => Ok tt (set_serviceCache (delete s) σ1)
        | Some None => Panic NilDereference σ1
        | Some (Some cl') =>
            match delete_err (faults σ) cl' hkey with
            | Some e =>
                Ok tt (set_serviceCache (delete s)
                         (record (EvDelete cl' hkey (Some e)) σ1))
            | None =>
                Ok tt (set_serviceCache (delete s)
                         (record (EvDelete cl' hkey None)
                            (set_kv (delete hkey) σ1)))
            end
        end
    end.
Proof.
  intros Hs Hm Hcl Herr σ1.
  rewrite (sweep_entry_stale _ _ _ Hs Hm), (deregister_pooled _ _ _ _ Hcl), Herr.
  fold σ1. rewrite deRegisterUpstream_run.
  destruct (agent_of_identifier _) as [a|]; [|done]. cbv zeta.
  change (agents (this σ1)) with (agents (this σ)).
  change (faults σ1) with (faults σ).
  destruct (agents (this σ) !! a) as [[cl'|]|]; [|done..].
  by destruct (delete_err _ _ _).
Qed.

(** What the step for one entry comes to in a state the sweep is ready
    for. *)
Lemma sweep_entry_ready s b σ :
  serviceCache σ !! s = Some b →
  map_Forall (λ _ c, c ≠ None) (agents (this σ)) →
  (marked b = false →
   is_Some (agents (this σ) !! agent b) ∧
   Strings.Contains (RID (service b)) ":" = true) →
  ∃ σ', sweep_entry s b σ = Ok tt σ' ∧
    this σ' = this σ ∧
    catalog (remote σ') ⊆ catalog (remote σ) ∧
    if marked b then serviceCache σ' !! s = Some (set_marked false b)
    else ∃ cl,
      agents (this σ) !! agent b = Some (Some cl) ∧
      EvServiceDeregister cl (RID (service b))
        (deregister_err (faults σ) cl (RID (service b))) ∈ new_calls σ σ' ∧
      match deregister_err (faults σ) cl (RID (service b)) with
      | None =>
          serviceCache σ' !! s = None ∧
          catalog (remote σ') !! (Address (consulapi.config cl), RID (service b)) = None
      | Some _ => serviceCache σ' !! s = Some b
      end.
Proof.
  intros Hs Hpool Hready.
  destruct (marked b) eqn:Hm.
  { rewrite (sweep_entry_marked _ _ _ Hs Hm). eexists. split_and!; try done.
    simpl. by rewrite lookup_alter_eq, Hs. }
  destruct (Hready eq_refl) as [[c Hc] Hcolon].
  destruct c as [cl|]; [|by destruct (Hpool _ _ Hc)].
  destruct (deregister_err (faults σ) cl (RID (service b))) as [e|] eqn:Herr.
  { rewrite (sweep_entry_failed _ _ _ _ _ Hs Hm Hc Herr).
    eexists. split_and!; try done. exists cl. rewrite Herr. split_and!; try done.
    rewrite (new_calls_app _ _ [EvServiceDeregister cl (RID (service b)) (Some e)])
      by done.
    by apply list_elem_of_singleton. }
  rewrite (sweep_entry_deregistered _ _ _ _ Hs Hm Hc Herr). cbv zeta.
  apply agent_of_identifier_colon in Hcolon as [a Ha]. rewrite Ha.
  set (ev := EvServiceDeregister cl (RID (service b)) None).
  assert (Hdone : ∀ σ' evs,
    this σ' = this σ →
    catalog (remote σ') = delete (Address (consulapi.config cl), RID (service b))
                            (catalog (remote σ)) →
    serviceCache σ' = delete s (serviceCache σ) →
    calls σ' = calls σ ++ ev :: evs →
    ∃ σ'', Ok tt σ' = Ok tt σ'' ∧ this σ'' = this σ ∧
      catalog (remote σ'') ⊆ catalog (remote σ) ∧
      ∃ cl0, agents (this σ) !! agent b = Some (Some cl0) ∧
        EvServiceDeregister cl0 (RID (service b))
          (deregister_err (faults σ) cl0 (RID (service b))) ∈ new_calls σ σ'' ∧
        match deregister_err (faults σ) cl0 (RID (service b)) with
        | None =>
            serviceCache σ'' !! s = None ∧
            catalog (remote σ'') !! (Address (consulapi.config cl0), RID (service b)) = None
        | Some _ => serviceCache σ'' !! s = Some b
        end).
  { intros σ' evs Ht Hcat Hcache Hcalls. exists σ'. split_and!; try done.
    - rewrite Hcat. apply delete_subseteq.
    - exists cl. rewrite Herr, Hcat, Hcache, !lookup_delete_eq.
      split_and!; try done.
      rewrite (new_calls_app _ _ _ Hcalls). left. }
  destruct (agents (this σ) !! a) as [[cl'|]|] eqn:Ha'.
  - destruct (delete_err _ _ _); eapply Hdone; try done; simpl;
      by rewrite <- app_assoc.
  - by destruct (Hpool _ _ Ha').
  - by eapply (Hdone _ []).
Qed.

Lemma range_ready order σ :
  NoDup order →
  map_Forall (λ _ c, c ≠ None) (agents (this σ)) →
  (∀ s b, s ∈ order → serviceCache σ !! s = Some b → marked b = false →
     is_Some (agents (this σ) !! agent b) ∧
     Strings.Contains (RID (service b)) ":" = true) →
  ∃ σ', range_serviceCache order sweep_entry σ = Ok tt σ' ∧
    this σ' = this σ ∧
    catalog (remote σ') ⊆ catalog (remote σ) ∧
    ∀ s b, s ∈ order → serviceCache σ !! s = Some b →
      if marked b then serviceCache σ' !! s = Some (set_marked false b)
      else ∃ cl,
        agents (this σ) !! agent b = Some (Some cl) ∧
        EvServiceDeregister cl (RID (service b))
          (deregister_err (faults σ) cl (RID (service b))) ∈ new_calls σ σ' ∧
        match deregister_err (faults σ) cl (RID (service b)) with
        | None =>
            serviceCache σ' !! s = None ∧
            catalog (remote σ') !! (Address (consulapi.config cl), RID (service b)) = None
        | Some _ => serviceCache σ' !! s = Some b
        end.
Proof.
  revert σ. induction order as [|s rest IH]; intros σ Hnd Hpool Hready.
  { exists σ. split_and!; try done. intros s b []%elem_of_nil. }
  apply NoDup_cons in Hnd as [Hs_rest Hnd].
  rewrite range_cons.
  destruct (serviceCache σ !! s) as [b|] eqn:Hs.
  2:{ destruct (IH σ Hnd Hpool) as (σ' & Hrun & Ht & Hcat & Hpost).
      { intros s' b' Hin Hs' Hm'. apply (Hready s' b'); [by right|done..]. }
      exists σ'. split_and!; try done.
      intros s' b' Hin Hs'. apply Hpost; [|done].
      apply elem_of_cons in Hin as [->|]; [congruence|done]. }
  destruct (sweep_entry_ready s b σ Hs Hpool) as (σ1 & Hbody & Ht1 & Hcat1 & Hpost1).
  { apply (Hready s b); [left|done]. }
  pose proof (framed_sweep_entry s b σ) as (Hf1 & _ & _ & Hpre1 & Hk1).
  rewrite Hbody in *. simpl in Hf1, Hpre1, Hk1.
  destruct (IH σ1 Hnd) as (σ' & Hrun & Ht & Hcat & Hpost).
  { by rewrite Ht1. }
  { intros s' b' Hin Hs' Hm'. rewrite Ht1.
    rewrite Hk1 in Hs' by (intros ->; done).
    apply (Hready s' b'); [by right|done..]. }
  pose proof (framed_range rest σ1) as (_ & _ & _ & Hpre & Hk).
  rewrite Hrun in *. simpl in Hpre, Hk.
  exists σ'. split_and!; [done|congruence|by etrans|].
  intros s' b' Hin Hs'.
  apply elem_of_cons in Hin as [->|Hin].
  - assert (b' = b) as -> by congruence.
    rewrite (Hk s) by done.
    destruct (marked b); [done|].
    destruct Hpost1 as (cl & Hcl & Hev & Hres). exists cl.
    split_and!; [done|by eapply new_calls_elem_l|].
    destruct (deregister_err _ _ _); [done|].
    destruct Hres as [? Hnone]. split; [done|].
    by eapply lookup_weaken_None.
  - assert (s' ≠ s) as Hne by (intros ->; done).
    rewrite <- Hk1 in Hs' by done.
    specialize (Hpost s' b' Hin Hs').
    destruct (marked b'); [done|].
    destruct Hpost as (cl & Hcl & Hev & Hres). exists cl.
    rewrite Ht1, Hf1 in *.
    split_and!; [done|by eapply new_calls_elem_r|done].
Qed.

Lemma range_order_elem order σ s b :
  range_order order σ → serviceCache σ !! s = Some b → s ∈ order.
Proof.
  intros [_ Hdom] Hs.
  apply (elem_of_list_to_set (C := gset string)). rewrite Hdom.
  apply elem_of_dom. eauto.
Qed.

(** In a reachable state the sweep is ready as soon as the identifiers of
    the unmarked entries have a colon. *)
Lemma reachable_sweep_ready σ :
  reachable σ →
  (∀ s b, serviceCache σ !! s = Some b → marked b = false →
          Strings.Contains s ":" = true) →
  sweep_ready σ.
Proof.
  intros Hreach Hcolon. destruct (reachable_wf _ Hreach) as [Hp Hc]. split.
  - intros a c Ha. by destruct (Hp _ _ Ha) as [_ ->].
  - intros s b Hs Hm. destruct (Hc _ _ Hs) as [-> Hin]. split; [done|].
    by eapply Hcolon.
Qed.

(** C1, as amended.  Mark-and-sweep correctness of the [Deregister] sweep:
    from a state the process can reach, in which the identifier of every
    unmarked cache entry contains a colon, the sweep returns, in whatever
    order it visits the cache, and for every entry that is in the cache at
    its start: a marked entry survives, with only its mark reset to
    unmarked; for an unmarked entry the sweep deregisters the stored
    identifier from the catalog, through the connection to the entry's
    agent, and when that deregistration succeeds the entry is removed from
    the cache (and the agent's catalog no longer lists the identifier).  The
    sweep adds no entry. *)
Theorem mark_and_sweep σ order :
  reachable σ → range_order order σ →
  map_Forall (λ s b, marked b = false → Strings.Contains s ":" = true)
    (serviceCache σ) →
  ∃ σ', Deregister order σ = Ok tt σ' ∧ sweep_post σ σ' ∧
    dom (serviceCache σ') ⊆ dom (serviceCache σ) ∧
    ∀ s b cl,
      serviceCache σ !! s = Some b → marked b = false →
      agents (this σ) !! agent b = Some (Some cl) →
      deregister_err (faults σ) cl (RID (service b)) = None →
      catalog (remote σ') !! (Address (consulapi.config cl), RID (service b)) = None.
Proof.
  intros Hreach Horder Hcolon.
  destruct (reachable_sweep_ready σ Hreach Hcolon) as [Hpool Hcache].
  destruct (range_ready order σ) as (σ' & Hrun & Ht & Hcat & Hpost).
  { apply Horder. }
  { done. }
  { intros s b _ Hs. by apply (Hcache s b). }
  pose proof (framed_range order σ) as (_ & _ & _ & _ & Hk).
  unfold Deregister. rewrite Hrun in *. simpl in Hk.
  exists σ'. split_and!; [done|..].
  - intros s b Hs.
    specialize (Hpost s b (range_order_elem _ _ _ _ Horder Hs) Hs).
    destruct (marked b); [done|].
    destruct Hpost as (cl & Hcl & Hev & Hres). exists cl. rewrite Ht.
    split_and!; [done..|]. intros Herr. rewrite Herr in Hres. apply Hres.
  - intros s [b' Hs']%elem_of_dom. apply elem_of_dom.
    destruct (serviceCache σ !! s) as [b|] eqn:Hs; [done|].
    rewrite Hk in Hs'; [congruence|].
    intros Hin. destruct Horder as [_ Hdom].
    apply (elem_of_list_to_set (C := gset string)) in Hin.
    rewrite Hdom in Hin. apply elem_of_dom in Hin as [? ?]. congruence.
  - intros s b cl Hs Hm Hcl Herr.
    specialize (Hpost s b (range_order_elem _ _ _ _ Horder Hs) Hs).
    rewrite Hm in Hpost. destruct Hpost as (cl' & Hcl' & _ & Hres).
    assert (cl' = cl) as -> by congruence.
    rewrite Herr in Hres. apply Hres.
Qed.

(** The step for another key leaves an entry, the connection to its agent
    and the fault behaviour as they are. *)
Lemma sweep_entry_other s0 b0 σ s b cl :
  s0 ≠ s → serviceCache σ !! s = Some b →
  agents (this σ) !! agent b = Some (Some cl) →
  let σ1 := state_of (sweep_entry s0 b0 σ) in
  serviceCache σ1 !! s = Some b ∧
  agents (this σ1) !! agent b = Some (Some cl) ∧
  faults σ1 = faults σ ∧
  ∃ evs, calls σ1 = calls σ ++ evs.
Proof.
  intros Hne Hs Hcl σ1.
  destruct (framed_sweep_entry s0 b0 σ) as (Hf & _ & Hsub & Hpre & Hk).
  split_and!; try done.
  - subst σ1. rewrite Hk; [done|]. by intros ->.
  - by eapply lookup_weaken.
Qed.

(** An unmarked entry whose catalog deregistration fails is in the cache
    after the sweep, however the sweep ends. *)
Lemma range_retains order σ s b cl e :
  serviceCache σ !! s = Some b → marked b = false →
  agents (this σ) !! agent b = Some (Some cl) →
  deregister_err (faults σ) cl (RID (service b)) = Some e →
  let σ' := state_of (range_serviceCache order sweep_entry σ) in
  serviceCache σ' !! s = Some b ∧
  agents (this σ') !! agent b = Some (Some cl) ∧
  faults σ' = faults σ.
Proof.
  revert σ. induction order as [|s0 rest IH]; intros σ Hs Hm Hcl Herr; [done|].
  cbv zeta. rewrite range_cons.
  destruct (serviceCache σ !! s0) as [b0|] eqn:Hs0; [|by apply IH].
  destruct (decide (s0 = s)) as [->|Hne].
  - assert (b0 = b) as -> by congruence.
    rewrite (sweep_entry_failed _ _ _ _ _ Hs Hm Hcl Herr).
    by apply (IH (record _ σ)).
  - destruct (sweep_entry_other s0 b0 σ s b cl Hne Hs Hcl) as (Hs1 & Hcl1 & Hf1 & _).
    destruct (sweep_entry s0 b0 σ) as [[] σ1|r σ1|σ1]; simpl in *; [|done..].
    destruct (IH σ1) as (? & ? & ?); [done..|congruence|].
    split_and!; [done..|congruence].
Qed.

(** A sweep that gets through has made the call for every such entry. *)
Lemma range_retries order σ σ' s b cl e :
  s ∈ order →
  range_serviceCache order sweep_entry σ = Ok tt σ' →
  serviceCache σ !! s = Some b → marked b = false →
  agents (this σ) !! agent b = Some (Some cl) →
  deregister_err (faults σ) cl (RID (service b)) = Some e →
  EvServiceDeregister cl (RID (service b)) (Some e) ∈ new_calls σ σ'.
Proof.
  revert σ. induction order as [|s0 rest IH]; intros σ Hin Hrun Hs Hm Hcl Herr.
  { by apply elem_of_nil in Hin. }
  rewrite range_cons in Hrun.
  destruct (serviceCache σ !! s0) as [b0|] eqn:Hs0.
  2:{ apply elem_of_cons in Hin as [->|Hin]; [congruence|]. by eapply IH. }
  destruct (decide (s0 = s)) as [->|Hne].
  - assert (b0 = b) as -> by congruence.
    rewrite (sweep_entry_failed _ _ _ _ _ Hs Hm Hcl Herr) in Hrun.
    set (ev := EvServiceDeregister cl (RID (service b)) (Some e)) in *.
    pose proof (framed_range rest (record ev σ)) as (_ & _ & _ & Hpre & _).
    rewrite Hrun in Hpre.
    apply (new_calls_elem_l σ (record ev σ) σ'); [by exists [ev]|exact Hpre|].
    rewrite (new_calls_app _ _ [ev]) by done. left.
  - apply elem_of_cons in Hin as [->|Hin]; [done|].
    destruct (sweep_entry_other s0 b0 σ s b cl Hne Hs Hcl) as (Hs1 & Hcl1 & Hf1 & Hpre1).
    destruct (sweep_entry s0 b0 σ) as [[] σ1|r σ1|σ1]; simpl in *; [|done..].
    pose proof (framed_range rest σ1) as (_ & _ & _ & Hpre & _).
    rewrite Hrun in Hpre. simpl in Hpre.
    eapply new_calls_elem_r; [done..|].
    eapply IH; try done. congruence.
Qed.

(** C5.  Deregistration retains the cache entry on failure.  For a stale
    entry whose catalog deregister call returns an error, the step of the
    sweep for it makes that one call and nothing else (no backend metadata
    removal is attempted), and leaves the state otherwise as it was.
    However the sweep goes on and ends, the entry is in the cache afterwards
    and still stale; so the step for it in the next sweep makes the same
    call again, and every next sweep that gets through has made it. *)
Theorem deregistration_failure_retains σ order s b cl e :
  serviceCache σ !! s = Some b → marked b = false →
  agents (this σ) !! agent b = Some (Some cl) →
  deregister_err (faults σ) cl (RID (service b)) = Some e →
  sweep_entry s b σ =
    Ok tt (record (EvServiceDeregister cl (RID (service b)) (Some e)) σ) ∧
  (let σ' := state_of (Deregister order σ) in
   serviceCache σ' !! s = Some b ∧ isStale s σ' = true ∧
   (∀ σ1, Deregister order σ = Ok tt σ1 → s ∈ order →
          EvServiceDeregister cl (RID (service b)) (Some e) ∈ new_calls σ σ1) ∧
   sweep_entry s b σ' =
     Ok tt (record (EvServiceDeregister cl (RID (service b)) (Some e)) σ') ∧
   ∀ order' σ'', s ∈ order' → Deregister order' σ' = Ok tt σ'' →
     EvServiceDeregister cl (RID (service b)) (Some e) ∈ new_calls σ' σ'' ∧
     serviceCache σ'' !! s = Some b).
Proof.
  intros Hs Hm Hcl Herr.
  split; [by apply sweep_entry_failed|]. cbv zeta.
  destruct (range_retains order σ s b cl e Hs Hm Hcl Herr) as (Hs' & Hcl' & Hf').
  fold (Deregister order) in Hs', Hcl', Hf'.
  assert (Herr' : deregister_err (faults (state_of (Deregister order σ))) cl
                    (RID (service b)) = Some e) by (by rewrite Hf').
  split_and!.
  - done.
  - unfold isStale. by rewrite Hs', Hm.
  - intros σ1 Hrun Hin. by eapply range_retries.
  - by apply sweep_entry_failed.
  - intros order' σ'' Hin Hrun. split.
    + by eapply range_retries.
    + destruct (range_retains order' (state_of (Deregister order σ)) s b cl e)
        as (Hs'' & _); [done..|].
      fold (Deregister order') in Hs''. by rewrite Hrun in Hs''.
Qed.

(** An unmarked entry whose identifier has no colon and whose catalog
    deregistration succeeds stops the sweep. *)
Lemma range_colonless order σ s b cl :
  s ∈ order →
  serviceCache σ !! s = Some b → marked b = false →
  agents (this σ) !! agent b = Some (Some cl) →
  deregister_err (faults σ) cl (RID (service b)) = None →
  Strings.Contains (RID (service b)) ":" = false →
  (∀ σ', range_serviceCache order sweep_entry σ ≠ Ok tt σ') ∧
  serviceCache (state_of (range_serviceCache order sweep_entry σ)) !! s = Some b.
Proof.
  revert σ. induction order as [|s0 rest IH]; intros σ Hin Hs Hm Hcl Herr Hcolon.
  { by apply elem_of_nil in Hin. }
  rewrite range_cons.
  destruct (serviceCache σ !! s0) as [b0|] eqn:Hs0.
  2:{ apply elem_of_cons in Hin as [->|Hin]; [congruence|]. by eapply IH. }
  destruct (decide (s0 = s)) as [->|Hne].
  - assert (b0 = b) as -> by congruence.
    rewrite (sweep_entry_deregistered _ _ _ _ Hs Hm Hcl Herr). cbv zeta.
    apply agent_of_identifier_None in Hcolon. rewrite Hcolon. done.
  - apply elem_of_cons in Hin as [->|Hin]; [done|].
    destruct (sweep_entry_other s0 b0 σ s b cl Hne Hs Hcl) as (Hs1 & Hcl1 & Hf1 & _).
    destruct (sweep_entry s0 b0 σ) as [[] σ1|r σ1|σ1]; simpl in *; [|done..].
    apply IH; try done. congruence.
Qed.

(** C9.  [deRegisterUpstream] is partial in the stored identifier: when
    the identifier contains no colon it faults with an out-of-range access
    of index 1 in a slice of length 1, instead of returning an error, and
    when the identifier contains a colon it does not fault that way.  A
    sweep that has, in its cache, a stale entry with a colon-free stored
    identifier whose catalog deregistration succeeds never returns, and the
    entry is still in the cache when it stops. *)
Theorem deRegisterUpstream_partial :
  (∀ svc σ,
     Strings.Contains (RID svc) ":" = false →
     deRegisterUpstream svc σ = Panic (IndexOutOfRange 1 1) σ) ∧
  (∀ svc σ,
     Strings.Contains (RID svc) ":" = true →
     ∀ i n σ', deRegisterUpstream svc σ ≠ Panic (IndexOutOfRange i n) σ') ∧
  (∀ σ order s b cl,
     range_order order σ →
     serviceCache σ !! s = Some b → marked b = false →
     agents (this σ) !! agent b = Some (Some cl) →
     deregister_err (faults σ) cl (RID (service b)) = None →
     Strings.Contains (RID (service b)) ":" = false →
     (∀ σ', Deregister order σ ≠ Ok tt σ') ∧
     serviceCache (state_of (Deregister order σ)) !! s = Some b).
Proof.
  split_and!.
  - intros svc σ Hcolon. rewrite deRegisterUpstream_run.
    apply agent_of_identifier_None in Hcolon. by rewrite Hcolon.
  - intros svc σ Hcolon i n σ'. rewrite deRegisterUpstream_run.
    apply agent_of_identifier_colon in Hcolon as [a ->]. cbv zeta.
    destruct (agents (this σ) !! a) as [[cl|]|]; [|done..].
    by destruct (delete_err _ _ _).
  - intros σ order s b cl Horder Hs Hm Hcl Herr Hcolon.
    apply range_colonless with (cl := cl); try done.
    by eapply range_order_elem.
Qed.

(** ** Backend metadata removal *)

(** C6, as amended.  Backend metadata removal.  For a stale entry whose
    catalog deregistration succeeds, whose stored identifier has a second
    component between colons, and for whose agent name [a], worked out from
    that identifier, the pool holds no [nil] connection: the step of the
    sweep returns and removes the entry from the cache, and
    [deRegisterUpstream] asks for the deletion of the key
    [upstreams/<name>/<a>:<port>] exactly when a connection for [a] is in
    the pool; the entry is removed also when that deletion returns an
    error, which [deRegisterUpstream] hands back, and when no connection for
    [a] is pooled no deletion is asked for at all and [deRegisterUpstream]
    reports success.  The key is the one written at registration when [a]
    is the agent of the registered service. *)
Theorem upstream_removal σ s b cl a :
  serviceCache σ !! s = Some b → marked b = false →
  agents (this σ) !! agent b = Some (Some cl) →
  deregister_err (faults σ) cl (RID (service b)) = None →
  agent_of_identifier (RID (service b)) = Some a →
  agents (this σ) !! a ≠ Some None →
  let hkey := hkey_of (RName (service b)) a (RPort (service b)) in
  let gone := EvServiceDeregister cl (RID (service b)) None in
  (∃ σ', sweep_entry s b σ = Ok tt σ' ∧
     serviceCache σ' = delete s (serviceCache σ) ∧
     match agents (this σ) !! a with
     | Some (Some cl') =>
         new_calls σ σ' =
           [gone; EvDelete cl' hkey (delete_err (faults σ) cl' hkey)] ∧
         match delete_err (faults σ) cl' hkey with
         | None => kv (remote σ') = delete hkey (kv (remote σ))
         | Some _ => kv (remote σ') = kv (remote σ)
         end
     | _ => new_calls σ σ' = [gone] ∧ kv (remote σ') = kv (remote σ)
     end) ∧
  (∀ σ0 cl' e,
     agents (this σ0) !! a = Some (Some cl') →
     delete_err (faults σ0) cl' hkey = Some e →
     deRegisterUpstream (service b) σ0 =
       Ok (Some ("Unable to Delete key " +:+ hkey +:+ ": " +:+ e), false)
          (record (EvDelete cl' hkey (Some e)) σ0)) ∧
  (∀ σ0,
     agents (this σ0) !! a = None →
     deRegisterUpstream (service b) σ0 = Ok (None, true) σ0) ∧
  (∀ svc, service b = registration svc → a = Agent svc →
          hkey = Key (upstream_pair svc)).
Proof.
  intros Hs Hm Hcl Herr Ha Hnil hkey gone. split_and!.
  - rewrite (sweep_entry_deregistered _ _ _ _ Hs Hm Hcl Herr). cbv zeta.
    rewrite Ha. fold hkey gone.
    destruct (agents (this σ) !! a) as [[cl'|]|]; [|done|].
    + destruct (delete_err (faults σ) cl' hkey) as [e|];
        (eexists; split; [done|]); simpl; (split; [done|]);
        (split; [|done]); apply new_calls_app; simpl; by rewrite <- app_assoc.
    + eexists; split; [done|]. simpl. split_and!; try done.
      by apply new_calls_app.
  - intros σ0 cl' e Hcl' Hdel. rewrite deRegisterUpstream_run, Ha. cbv zeta.
    fold hkey. by rewrite Hcl', Hdel.
  - intros σ0 Hnone. rewrite deRegisterUpstream_run, Ha. cbv zeta.
    by rewrite Hnone.
  - intros svc Hsvc ->. subst hkey. rewrite Hsvc.
    by rewrite registration_RName, registration_RPort.
Qed.

(** ** The claims at the example inputs *)

Lemma reachable_stale_after svc :
  Register svc start = Ok tt (state_of (Register svc start)) →
  range_order [ID svc] (state_of (Register svc start)) →
  Deregister [ID svc] (state_of (Register svc start)) = Ok tt (stale_after svc) →
  reachable (stale_after svc).
Proof.
  intros Hreg Horder Hsweep.
  apply (reachable_Deregister (state_of (Register svc start)) [ID svc]);
    [|done..].
  apply (reachable_Register start svc); [constructor|done].
Qed.

(** C1, as stated, at a cache whose entry has no colon in its identifier:
    the catalog deregistration goes through, the sweep then faults, and the
    entry is still in the cache. *)
Lemma mark_and_sweep_counterexample :
  reachable (stale_after bare) ∧
  range_order ["web"] (stale_after bare) ∧
  (∃ σ', Deregister ["web"] (stale_after bare) = Panic (IndexOutOfRange 1 1) σ') ∧
  ¬ sweep_post (stale_after bare)
      (state_of (Deregister ["web"] (stale_after bare))).
Proof.
  split_and!.
  - apply reachable_stale_after.
    + vm_compute. reflexivity.
    + split; [apply NoDup_singleton|]. vm_compute. reflexivity.
    + vm_compute. reflexivity.
  - split; [apply NoDup_singleton|]. vm_compute. reflexivity.
  - eexists. vm_compute. reflexivity.
  - intros Hpost.
    specialize (Hpost "web"
      (newCacheEntry (registration bare) "agentA") eq_refl).
    simpl in Hpost. destruct Hpost as (cl & Hcl & _ & Hgone).
    specialize (Hgone eq_refl). vm_compute in Hgone. discriminate.
Qed.

Lemma mark_and_sweep_witness :
  ∃ σ', Deregister ["web-1:agentA-3"] (stale_after web1) = Ok tt σ' ∧
        sweep_post (stale_after web1) σ'.
Proof.
  destruct (mark_and_sweep (stale_after web1) ["web-1:agentA-3"])
    as (σ' & Hrun & Hpost & _).
  - apply reachable_stale_after.
    + vm_compute. reflexivity.
    + split; [apply NoDup_singleton|]. vm_compute. reflexivity.
    + vm_compute. reflexivity.
  - split; [apply NoDup_singleton|]. vm_compute. reflexivity.
  - apply (bool_decide_unpack _). vm_compute. exact I.
  - eauto.
Defined.

Lemma idempotent_registration_witness :
  Register web1 (state_of (Register web1 start)) =
    Ok tt (set_serviceCache (alter (set_marked true) "web-1:agentA-3")
             (state_of (Register web1 start))).
Proof.
  refine (proj1 (idempotent_registration (state_of (Register web1 start)) web1
                   (set_marked true (newCacheEntry (registration web1) "agentA")) _)).
  vm_compute. reflexivity.
Defined.

Lemma registration_atomic_witness :
  (Register web1 (New plain_config (mkRemote ∅ ∅) catalog_down) =
     Ok tt (state_of (Register web1 (New plain_config (mkRemote ∅ ∅) catalog_down))) ∧
   serviceCache
     (state_of (Register web1 (New plain_config (mkRemote ∅ ∅) catalog_down))) = ∅) ∧
  (Register web1 (New plain_config (mkRemote ∅ ∅) kv_down) =
     Ok tt (state_of (Register web1 (New plain_config (mkRemote ∅ ∅) kv_down))) ∧
   serviceCache
     (state_of (Register web1 (New plain_config (mkRemote ∅ ∅) kv_down))) = ∅) ∧
  cache_backed (state_of (Register web1 start)).
Proof.
  destruct registration_atomic as [Hatomic Hbacked]. split; [|split].
  - refine (proj1 (Hatomic (New plain_config (mkRemote ∅ ∅) catalog_down) web1 _)
              clientA "connection refused" _).
    + vm_compute. reflexivity.
    + vm_compute. left.
  - destruct (proj1 (proj2 (Hatomic (New plain_config (mkRemote ∅ ∅) kv_down)
                              web1 eq_refl))
                clientA (upstream_pair web1) false "connection refused")
      as (Hrun & Hcache & _).
    + vm_compute. right. left.
    + split; [exact Hrun|exact Hcache].
  - apply Hbacked. apply (reachable_Register start web1); [constructor|].
    vm_compute. reflexivity.
Defined.

Lemma cas_exists_is_not_an_error_witness :
  registerUpstream web1 (state_of (Register web1 start)) =
    Ok (None, true)
       (record (EvCAS clientA (upstream_pair web1) false None)
          (state_of (Register web1 start))) ∧
  registerUpstream web1 (set_world (mkRemote ∅ ∅) kv_down
                           (state_of (Register web1 start))) =
    Ok (Some ("Unable to CAS key upstreams/web/agentA:80: connection refused"),
        false)
       (record (EvCAS clientA (upstream_pair web1) false
                  (Some "connection refused"))
          (set_world (mkRemote ∅ ∅) kv_down (state_of (Register web1 start)))).
Proof.
  split.
  - refine (proj1 (proj1 (cas_exists_is_not_an_error
                            (state_of (Register web1 start)) web1)
                     clientA upstream_value _ _ _));
      vm_compute; reflexivity.
  - refine (proj2 (proj2 (cas_exists_is_not_an_error
                            (set_world (mkRemote ∅ ∅) kv_down
                               (state_of (Register web1 start))) web1))
              clientA "connection refused" _ _);
      vm_compute; reflexivity.
Defined.

Lemma deregistration_failure_retains_witness :
  sweep_entry "web-1:agentA-3" (newCacheEntry (registration web1) "agentA")
    (set_world (remote (stale_after web1)) catalog_down (stale_after web1)) =
  Ok tt (record (EvServiceDeregister clientA "web-1:agentA-3"
                   (Some "connection refused"))
           (set_world (remote (stale_after web1)) catalog_down (stale_after web1))).
Proof.
  refine (proj1 (deregistration_failure_retains
                   (set_world (remote (stale_after web1)) catalog_down
                      (stale_after web1))
                   ["web-1:agentA-3"] "web-1:agentA-3"
                   (newCacheEntry (registration web1) "agentA") clientA
                   "connection refused" _ _ _ _));
    vm_compute; reflexivity.
Defined.

(** C6, as stated, at an entry whose identifier names something else than
    its agent: the catalog deregistration goes through and the entry leaves
    the cache, but no deletion is asked for and the record stays. *)
Lemma upstream_removal_counterexample :
  reachable (stale_after job) ∧
  range_order ["job:web"] (stale_after job) ∧
  ∃ σ', Deregister ["job:web"] (stale_after job) = Ok tt σ' ∧
    new_calls (stale_after job) σ' =
      [EvServiceDeregister clientA "job:web" None] ∧
    serviceCache σ' !! "job:web" = None ∧
    kv (remote σ') !! "upstreams/web/agentA:80" = Some upstream_value.
Proof.
  split_and!.
  - apply reachable_stale_after.
    + vm_compute. reflexivity.
    + split; [apply NoDup_singleton|]. vm_compute. reflexivity.
    + vm_compute. reflexivity.
  - split; [apply NoDup_singleton|]. vm_compute. reflexivity.
  - eexists. split_and!; vm_compute; reflexivity.
Qed.

Lemma upstream_removal_witness :
  ∃ σ', sweep_entry "web-1:agentA-3" (newCacheEntry (registration web1) "agentA")
          (stale_after web1) = Ok tt σ' ∧
    new_calls (stale_after web1) σ' =
      [EvServiceDeregister clientA "web-1:agentA-3" None;
       EvDelete clientA "upstreams/web/agentA:80" None].
Proof.
  destruct (upstream_removal (stale_after web1) "web-1:agentA-3"
              (newCacheEntry (registration web1) "agentA") clientA "agentA")
    as [(σ' & Hrun & _ & Hcalls) _].
  - vm_compute. reflexivity.
  - reflexivity.
  - vm_compute. reflexivity.
  - reflexivity.
  - vm_compute. reflexivity.
  - vm_compute. discriminate.
  - exists σ'. split; [done|]. exact (proj1 Hcalls).
Defined.

Lemma agent_identifier_parsing_witness :
  new_calls (stale_after web1)
    (state_of (deRegisterUpstream (registration web1) (stale_after web1))) =
  [EvDelete clientA "upstreams/web/agentA:80" None].
Proof.
  refine (proj1 (proj2 (agent_identifier_parsing (registration web1)
                          (stale_after web1))) "agentA" clientA _ _);
    vm_compute; reflexivity.
Defined.

(** C8, as stated, at the registration of [web1]: the value written is not
    the one the spec gives. *)
Lemma upstream_record_format_counterexample :
  ∃ v, kv (remote (state_of (Register web1 start))) !! "upstreams/web/agentA:80"
         = Some v ∧
       v ≠ spec_value.
Proof. exists upstream_value. split; [vm_compute; reflexivity|discriminate]. Qed.

Lemma upstream_record_format_witness :
  ∃ work err,
    new_calls (state_of (Register web1 start))
      (state_of (registerUpstream web1 (state_of (Register web1 start)))) =
    [EvCAS clientA {| Key := "upstreams/web/agentA:80"; Value := upstream_value |}
       work err].
Proof.
  refine (proj1 (upstream_record_format (state_of (Register web1 start)) web1
                   clientA _)).
  vm_compute. reflexivity.
Defined.

Lemma deRegisterUpstream_partial_witness :
  deRegisterUpstream (registration bare) start = Panic (IndexOutOfRange 1 1) start ∧
  ∀ σ', Deregister ["web"] (stale_after bare) ≠ Ok tt σ'.
Proof.
  destruct deRegisterUpstream_partial as (Hpanic & _ & Hsweep). split.
  - apply Hpanic. reflexivity.
  - refine (proj1 (Hsweep (stale_after bare) ["web"] "web"
                     (newCacheEntry (registration bare) "agentA") clientA
                     _ _ _ _ _ _)).
    + split; [apply NoDup_singleton|]. vm_compute. reflexivity.
    + vm_compute. reflexivity.
    + reflexivity.
    + vm_compute. reflexivity.
    + reflexivity.
    + reflexivity.
Defined.

Lemma register_empty_agent_witness :
  Register lost start = Panic NilDereference (set_agents <["" := None]> start) ∧
  client "" start = Ok None start.
Proof.
  apply (register_empty_agent start lost).
  - apply reachable_New.
  - reflexivity.
  - reflexivity.
Defined.

(** ** The scenario of the spec *)

(** Cycle 1 presents the tasks A and B, cycle 2 only A: after cycle 1 both
    are cached and both backend records exist; the sweep of cycle 2
    deregisters B from the catalog, deletes its backend record and drops it
    from the cache, and A stays. *)
Example two_cycles :
  let σ1 := state_of (cycle [taskA; taskB] [ID taskA; ID taskB] start) in
  let σ2 := state_of (cycle [taskA] [ID taskB; ID taskA] σ1) in
  cycle [taskA; taskB] [ID taskA; ID taskB] start = Ok tt σ1 ∧
  cycle [taskA] [ID taskB; ID taskA] σ1 = Ok tt σ2 ∧
  dom (serviceCache σ1) = {[ID taskA; ID taskB]} ∧
  dom (kv (remote σ1)) = {["upstreams/A/agent1:80"; "upstreams/B/agent1:81"]} ∧
  dom (serviceCache σ2) = {[ID taskA]} ∧
  dom (kv (remote σ2)) = {["upstreams/A/agent1:80"]} ∧
  new_calls σ1 σ2 =
    [EvServiceDeregister (mkClient (agentConfig plain_config "agent1"))
       "mesos-consul:agent1:B:81" None;
     EvDelete (mkClient (agentConfig plain_config "agent1"))
       "upstreams/B/agent1:81" None].
Proof. split_and!; vm_compute; reflexivity. Qed.

(** * Further properties *)

(** ** The agent connection pool *)

Lemma newAgent_run a σ :
  newAgent a σ =
  if decide (a = "") then Ok None σ
  else if newclient_err (faults σ) (agentConfig (config (this σ)) a)
       then Fatal σ
       else Ok (Some (mkClient (agentConfig (config (this σ)) a))) σ.
Proof.
  unfold newAgent. case_decide; [done|].
  rewrite bind_run. unfold get at 1. unfold NewClient.
  rewrite bind_run. unfold get at 1.
  by destruct (newclient_err _ _).
Qed.

Lemma client_run a σ :
  client a σ =
  if decide (a = "") then Ok None σ
  else match agents (this σ) !! a with
       | Some c => Ok c σ
       | None =>
           if newclient_err (faults σ) (agentConfig (config (this σ)) a)
           then Fatal σ
           else Ok (Some (mkClient (agentConfig (config (this σ)) a)))
                  (set_agents
                     <[a := Some (mkClient (agentConfig (config (this σ)) a))]> σ)
       end.
Proof.
  unfold client. case_decide as Ha; [done|].
  rewrite bind_run, connect_run.
  unfold agents_at.
  destruct (agents (this σ) !! a) as [c|] eqn:Hpool.
  { rewrite bind_run. unfold get at 1, mret, M_ret. by rewrite Hpool. }
  rewrite decide_False by done.
  destruct (newclient_err _ _); [done|].
  rewrite bind_run. unfold get at 1, mret, M_ret. simpl.
  by rewrite lookup_insert_eq.
Qed.

(** X1.  [client] keeps one connection per address.  When [client] returns for
    an address, a second call for the same address returns the same client
    and changes nothing; for a non-empty address the client returned is the
    one stored in the pool under that address; no slot of the pool is
    dropped or replaced, the slots of other addresses are as before, and
    the cache, the remote side and the round trips made are untouched. *)
Theorem client_reuses_connection σ a c σ' :
  client a σ = Ok c σ' →
  client a σ' = Ok c σ' ∧
  (a ≠ "" → agents (this σ') !! a = Some c) ∧
  (∀ a' c', agents (this σ) !! a' = Some c' → agents (this σ') !! a' = Some c') ∧
  (∀ a', a' ≠ a → agents (this σ') !! a' = agents (this σ) !! a') ∧
  serviceCache σ' = serviceCache σ ∧ remote σ' = remote σ ∧
  calls σ' = calls σ.
Proof.
  rewrite client_run. case_decide as Ha.
  { intros [= <- <-]. rewrite client_run, decide_True by done. done. }
  destruct (agents (this σ) !! a) as [c0|] eqn:Hpool.
  { intros [= <- <-]. rewrite client_run, decide_False, Hpool by done. done. }
  destruct (newclient_err _ _) eqn:Hnew; [done|].
  intros [= <- <-]. rewrite client_run, decide_False by done. simpl.
  rewrite lookup_insert_eq. split_and!; try done.
  - intros a' c' Ha'. rewrite lookup_insert_ne; [done|]. congruence.
  - intros a' Hne. by rewrite lookup_insert_ne.
Qed.

(** X2.  How [client] can end.  It never faults; it ends the process exactly
    when the address is not empty, has no slot in the pool, and
    [api.NewClient] fails for the configuration built for it, and then the
    pool is as before; it returns [nil] only for the empty address or for a
    slot that holds [nil], leaving the state alone; and in a state the
    process can reach it returns [nil] only for the empty address. *)
Theorem client_outcomes σ a :
  (∀ e σ', client a σ ≠ Panic e σ') ∧
  (∀ σ', client a σ = Fatal σ' ↔
         σ' = σ ∧ a ≠ "" ∧ agents (this σ) !! a = None ∧
         newclient_err (faults σ) (agentConfig (config (this σ)) a) = true) ∧
  (∀ σ', client a σ = Ok None σ' →
         σ' = σ ∧ (a = "" ∨ agents (this σ) !! a = Some None)) ∧
  (reachable σ → ∀ σ', client a σ = Ok None σ' → a = "").
Proof.
  rewrite client_run. split_and!.
  - intros e σ'. case_decide; [done|].
    destruct (agents (this σ) !! a); [done|]. by destruct (newclient_err _ _).
  - intros σ'. case_decide as Ha.
    { split; [done|]. by intros (_ & ? & _). }
    destruct (agents (this σ) !! a) as [c|].
    { split; [done|]. by intros (_ & _ & ? & _). }
    destruct (newclient_err _ _).
    + split; [by intros [= <-]|]. by intros (-> & _).
    + split; [done|]. by intros (_ & _ & _ & ?).
  - intros σ'. case_decide as Ha; [intros [= <-]; auto|].
    destruct (agents (this σ) !! a) as [c|]; [intros [= -> <-]; auto|].
    by destruct (newclient_err _ _).
  - intros Hreach σ'. destruct (reachable_wf _ Hreach) as [Hp _].
    case_decide as Ha; [done|].
    destruct (agents (this σ) !! a) as [c|] eqn:Hpool.
    + intros [= -> <-]. by destruct (Hp _ _ Hpool).
    + by destruct (newclient_err _ _).
Qed.

Lemma string_app_length s t :
  String.length (s +:+ t) = (String.length s + String.length t)%nat.
Proof. induction s as [|a s IH]; simpl; [done|]. by rewrite IH. Qed.

(** Text put in front of the same tail is the same text. *)
Lemma string_app_inj_r s1 s2 t : s1 +:+ t = s2 +:+ t → s1 = s2.
Proof.
  revert s2. induction s1 as [|a s1 IH]; intros [|b s2] Heq.
  - done.
  - apply (f_equal String.length) in Heq.
    rewrite !string_app_length in Heq. simpl in Heq. lia.
  - apply (f_equal String.length) in Heq.
    rewrite !string_app_length in Heq. simpl in Heq. lia.
  - change (String a (s1 +:+ t) = String b (s2 +:+ t)) in Heq.
    injection Heq as -> Heq. f_equal. by apply IH.
Qed.

(** X3.  The configuration [newAgent] connects with.  Its address is the agent
    address, a colon and the configured port; the token is the configured
    one unless that is empty, the scheme is https when SSL is enabled, the
    certificate check is switched off when SSL verification is disabled,
    basic authentication carries the configured user and password when it
    is enabled, and each of them is left as [api.DefaultConfig] gives it
    otherwise; two addresses with the same configuration are the same
    address.  When [newAgent] returns a client it is the client of that
    configuration, the address is not empty and the state is unchanged;
    when [api.NewClient] fails for a non-empty address the process ends. *)
Theorem newAgent_connection (c : consulConfig) a :
  let cfg := agentConfig c a in
  Address cfg = a +:+ ":" +:+ port c ∧
  Token cfg = (if decide (token c = "") then Token DefaultConfig else token c) ∧
  Scheme cfg = (if sslEnabled c then "https" else Scheme DefaultConfig) ∧
  InsecureSkipVerify cfg =
    (if sslVerify c then InsecureSkipVerify DefaultConfig else true) ∧
  HttpAuth cfg =
    (if AuthEnabled (auth c)
     then Some {| Username := AuthUsername (auth c);
                  Password := AuthPassword (auth c) |}
     else HttpAuth DefaultConfig) ∧
  (∀ a', agentConfig c a' = cfg → a' = a) ∧
  (∀ σ cl σ', newAgent a σ = Ok (Some cl) σ' →
     σ' = σ ∧ a ≠ "" ∧ cl = mkClient (agentConfig (config (this σ)) a)) ∧
  (∀ σ, a ≠ "" →
        newclient_err (faults σ) (agentConfig (config (this σ)) a) = true →
        newAgent a σ = Fatal σ).
Proof.
  assert (Haddr : ∀ x, Address (agentConfig c x) = x +:+ ":" +:+ port c).
  { intros x. unfold agentConfig.
    by destruct (decide (token c = "")), (sslEnabled c), (sslVerify c),
      (AuthEnabled (auth c)). }
  cbv zeta. split_and!.
  - apply Haddr.
  - unfold agentConfig.
    by destruct (decide (token c = "")), (sslEnabled c), (sslVerify c),
      (AuthEnabled (auth c)).
  - unfold agentConfig.
    by destruct (decide (token c = "")), (sslEnabled c), (sslVerify c),
      (AuthEnabled (auth c)).
  - unfold agentConfig.
    by destruct (decide (token c = "")), (sslEnabled c), (sslVerify c),
      (AuthEnabled (auth c)).
  - unfold agentConfig.
    by destruct (decide (token c = "")), (sslEnabled c), (sslVerify c),
      (AuthEnabled (auth c)).
  - intros a' Heq. apply (f_equal Address) in Heq. rewrite !Haddr in Heq.
    by apply string_app_inj_r in Heq.
  - intros σ cl σ'. rewrite newAgent_run. case_decide; [done|].
    destruct (newclient_err _ _); [done|]. by intros [= <- <-].
  - intros σ Ha Hnew. by rewrite newAgent_run, decide_False, Hnew.
Qed.

(** ** Registration, case by case *)

(** [Register] for an identifier that is not in the cache, when the pool has
    a slot for the agent. *)
Lemma Register_slot svc σ c :
  serviceCache σ !! ID svc = None →
  agents (this σ) !! Agent svc = Some c →
  Register svc σ =
  match c with
  | None => Panic NilDereference σ
  | Some cl =>
      let s := registration svc in
      let p := upstream_pair svc in
      match register_err (faults σ) cl s with
      | Some e => Ok tt (record (EvServiceRegister cl s (Some e)) σ)
      | None =>
          let σ1 := record (EvServiceRegister cl s None)
                      (set_catalog <[(Address (consulapi.config cl), ID svc) := s]> σ) in
          match cas_err (faults σ) cl p with
          | Some e => Ok tt (record (EvCAS cl p false (Some e)) σ1)
          | None =>
              let entry := set_marked true (newCacheEntry s (Agent svc)) in
              match kv (remote σ) !! Key p with
              | Some _ =>
                  Ok tt (set_serviceCache <[ID svc := entry]>
                           (record (EvCAS cl p false None) σ1))
              | None =>
                  Ok tt (set_serviceCache <[ID svc := entry]>
                           (record (EvCAS cl p true None)
                              (set_kv <[Key p := upstream_value]> σ1)))
              end
          end
      end
  end.
Proof.
  intros Hmiss Hpool. cbv zeta.
  unfold Register. rewrite bind_run. unfold get at 1.
  rewrite Hmiss, bind_run, connect_run, Hpool.
  unfold agents_at, mbind, M_bind, get, mret, M_ret. rewrite Hpool. simpl.
  destruct c as [cl|]; [|done]. simpl. unfold mbind, M_bind, get.
  destruct (register_err (faults σ) cl (registration svc)) as [e|];
    simpl; [done|].
  rewrite (registerUpstream_pooled svc _ cl) by done. cbv zeta. simpl.
  fold (upstream_pair svc).
  destruct (cas_err (faults σ) cl (upstream_pair svc)) as [e|];
    simpl; [by rewrite registration_RID|].
  change (Key (upstream_pair svc)) with (hkey_of (Name svc) (Agent svc) (Port svc)).
  destruct (kv (remote σ) !! hkey_of (Name svc) (Agent svc) (Port svc)) eqn:Hkv;
    simpl; unfold CacheMark, modify, set_serviceCache; simpl;
    by rewrite registration_RID, alter_insert_eq.
Qed.

(** [Register] for an identifier that is not in the cache, when the pool has
    no slot for the agent. *)
Lemma Register_no_slot svc σ :
  serviceCache σ !! ID svc = None →
  agents (this σ) !! Agent svc = None →
  Register svc σ =
  if decide (Agent svc = "")
  then Panic NilDereference (set_agents <[Agent svc := None]> σ)
  else if newclient_err (faults σ) (agentConfig (config (this σ)) (Agent svc))
       then Fatal σ
       else Register svc
              (set_agents
                 <[Agent svc :=
                     Some (mkClient (agentConfig (config (this σ)) (Agent svc)))]> σ).
Proof.
  intros Hmiss Hpool. unfold Register at 1. rewrite bind_run. unfold get at 1.
  rewrite Hmiss, bind_run, connect_run, Hpool.
  case_decide as Ha.
  { unfold agents_at. rewrite !bind_run. unfold get at 1, mret, M_ret. simpl.
    by rewrite lookup_insert_eq. }
  destruct (newclient_err _ _); [done|].
  symmetry. unfold Register. rewrite bind_run. unfold get at 1.
  cbn [serviceCache set_agents]. rewrite Hmiss, bind_run, connect_run.
  cbn [this set_agents agents]. by rewrite lookup_insert_eq.
Qed.

Lemma registration_fields svc :
  RID (registration svc) = ID svc ∧
  RName (registration svc) = Name svc ∧
  RPort (registration svc) = Port svc ∧
  RAddress (registration svc) = registry.Address svc ∧
  RTags (registration svc) = Tags svc ∧
  RCheck (registration svc) =
    {| CTTL := TTL (SCheck svc); CScript := Script (SCheck svc);
       CHTTP := HTTP (SCheck svc); CInterval := Interval (SCheck svc) |}.
Proof.
  unfold registration. case_decide as Htags; simpl; split_and!; try done.
  destruct (Tags svc); [done|]. simpl in Htags. lia.
Qed.

(** X4.  What a registration that goes through leaves behind.  For a service
    whose identifier is not in the cache, whose agent's connection is in
    the pool or can be made, and for which neither the catalog registration
    nor the check-and-set fails: [Register] returns; the cache has, under
    the service's identifier, a marked entry with the registration sent and
    the service's agent, so that it is not stale, and its other entries
    are as before; the connection is in the pool; the agent's catalog lists
    the identifier with that registration; the backend metadata key holds
    the value that was there, or the fixed value if it was free, and the
    other keys are as before; and the registration sent carries the
    service's identifier, name, port, address and tags. *)
Theorem Register_success σ svc cl :
  serviceCache σ !! ID svc = None →
  agents (this σ) !! Agent svc = Some (Some cl) ∨
  (agents (this σ) !! Agent svc = None ∧ Agent svc ≠ "" ∧
   newclient_err (faults σ) (agentConfig (config (this σ)) (Agent svc)) = false ∧
   cl = mkClient (agentConfig (config (this σ)) (Agent svc))) →
  register_err (faults σ) cl (registration svc) = None →
  cas_err (faults σ) cl (upstream_pair svc) = None →
  ∃ σ', Register svc σ = Ok tt σ' ∧
    serviceCache σ' !! ID svc =
      Some {| service := registration svc; agent := Agent svc; marked := true |} ∧
    (∀ s, s ≠ ID svc → serviceCache σ' !! s = serviceCache σ !! s) ∧
    isStale (ID svc) σ' = false ∧
    agents (this σ') !! Agent svc = Some (Some cl) ∧
    catalog (remote σ') !! (Address (consulapi.config cl), ID svc) =
      Some (registration svc) ∧
    kv (remote σ') !! Key (upstream_pair svc) =
      Some (default upstream_value (kv (remote σ) !! Key (upstream_pair svc))) ∧
    (∀ k, k ≠ Key (upstream_pair svc) →
          kv (remote σ') !! k = kv (remote σ) !! k) ∧
    RID (registration svc) = ID svc ∧ RName (registration svc) = Name svc ∧
    RPort (registration svc) = Port svc ∧
    RAddress (registration svc) = registry.Address svc ∧
    RTags (registration svc) = Tags svc.
Proof.
  intros Hmiss Hconn Hreg Hcas.
  assert (Hgo : ∀ σ0,
    serviceCache σ0 = serviceCache σ → remote σ0 = remote σ →
    faults σ0 = faults σ →
    agents (this σ0) !! Agent svc = Some (Some cl) →
    ∃ σ', Register svc σ0 = Ok tt σ' ∧
      serviceCache σ' !! ID svc =
        Some {| service := registration svc; agent := Agent svc; marked := true |} ∧
      (∀ s, s ≠ ID svc → serviceCache σ' !! s = serviceCache σ !! s) ∧
      isStale (ID svc) σ' = false ∧
      agents (this σ') !! Agent svc = Some (Some cl) ∧
      catalog (remote σ') !! (Address (consulapi.config cl), ID svc) =
        Some (registration svc) ∧
      kv (remote σ') !! Key (upstream_pair svc) =
        Some (default upstream_value (kv (remote σ) !! Key (upstream_pair svc))) ∧
      (∀ k, k ≠ Key (upstream_pair svc) →
            kv (remote σ') !! k = kv (remote σ) !! k)).
  { intros σ0 Hc Hr Hf Hpool.
    rewrite (Register_slot svc σ0 (Some cl)) by (by rewrite ?Hc). cbv zeta.
    rewrite Hf, Hr, Hreg, Hcas.
    destruct (kv (remote σ) !! Key (upstream_pair svc)) as [v|] eqn:Hkv;
      eexists; (split; [done|]); unfold isStale; simpl;
      rewrite ?Hc, ?Hr, !lookup_insert_eq; simpl; split_and!; try done.
    - intros s Hne. by rewrite lookup_insert_ne.
    - intros s Hne. by rewrite lookup_insert_ne.
    - intros k Hne. by rewrite lookup_insert_ne. }
  destruct (registration_fields svc) as (? & ? & ? & ? & ? & _).
  destruct Hconn as [Hpool|(Hpool & Ha & Hnew & ->)].
  - destruct (Hgo σ) as (σ' & ? & ? & ? & ? & ? & ? & ? & ?); [done..|].
    exists σ'. split_and!; done.
  - rewrite (Register_no_slot svc σ Hmiss Hpool), decide_False, Hnew by done.
    edestruct Hgo as (σ' & ? & ? & ? & ? & ? & ? & ? & ?); [..|
      exists σ'; split_and!; done]; try done.
    simpl. by rewrite lookup_insert_eq.
Qed.

(** With a connection in the slot, [Register] returns and leaves the pool
    as it is. *)
Lemma Register_slot_Ok svc σ cl :
  serviceCache σ !! ID svc = None →
  agents (this σ) !! Agent svc = Some (Some cl) →
  ∃ σ', Register svc σ = Ok tt σ' ∧ this σ' = this σ ∧ faults σ' = faults σ.
Proof.
  intros Hc Hpool. rewrite (Register_slot svc σ _ Hc Hpool). cbv zeta.
  destruct (register_err _ _ _); [by eexists|].
  destruct (cas_err _ _ _); [by eexists|].
  destruct (kv (remote σ) !! _); by eexists.
Qed.

(** X5.  How [Register] can end, in a state the process can reach.  It ends
    the process exactly when the identifier is not in the cache, the agent
    address is not empty and has no slot in the pool, and [api.NewClient]
    fails, and then nothing has changed; it faults exactly when the
    identifier is not in the cache and the agent address is empty, with a
    nil pointer dereference, after storing [nil] in the pool under the
    empty address; in every other case, that is, when the identifier is in
    the cache, or the agent address is not empty and its connection is
    pooled or can be made, it returns, whatever the remote side answers. *)
Theorem Register_returns σ svc :
  reachable σ →
  (∀ σ', Register svc σ = Fatal σ' ↔
         σ' = σ ∧ serviceCache σ !! ID svc = None ∧ Agent svc ≠ "" ∧
         agents (this σ) !! Agent svc = None ∧
         newclient_err (faults σ) (agentConfig (config (this σ)) (Agent svc))
           = true) ∧
  (∀ e σ', Register svc σ = Panic e σ' ↔
           e = NilDereference ∧ σ' = set_agents <[Agent svc := None]> σ ∧
           serviceCache σ !! ID svc = None ∧ Agent svc = "") ∧
  (is_Some (serviceCache σ !! ID svc) ∨
   (Agent svc ≠ "" ∧
    (is_Some (agents (this σ) !! Agent svc) ∨
     newclient_err (faults σ) (agentConfig (config (this σ)) (Agent svc))
       = false)) →
   ∃ σ', Register svc σ = Ok tt σ').
Proof.
  intros Hreach. destruct (reachable_wf _ Hreach) as [Hp _].
  destruct (serviceCache σ !! ID svc) as [b|] eqn:Hc.
  { rewrite (Register_hit _ _ _ Hc). split_and!.
    - intros σ'. split; [done|]. by intros (_ & ? & _).
    - intros e σ'. split; [done|]. by intros (_ & _ & ? & _).
    - intros _. eauto. }
  destruct (agents (this σ) !! Agent svc) as [c|] eqn:Hpool.
  { destruct (Hp _ _ Hpool) as [Ha ->].
    destruct (Register_slot_Ok svc σ _ Hc Hpool) as (σ1 & -> & Ht & _).
    split_and!.
    - intros σ'. split; [done|]. by intros (_ & _ & _ & ? & _).
    - intros e σ'. split; [done|]. by intros (_ & _ & _ & ?).
    - intros _. eauto. }
  rewrite (Register_no_slot svc σ Hc Hpool).
  case_decide as Ha.
  { split_and!.
    - intros σ'. split; [done|]. by intros (_ & _ & ? & _).
    - intros e σ'. split; [by intros [= <- <-]|]. by intros (-> & -> & _).
    - intros [[? ?]|[? _]]; done. }
  destruct (newclient_err _ _) eqn:Hnew.
  { split_and!.
    - intros σ'. split; [by intros [= <-]|]. by intros (-> & _).
    - intros e σ'. split; [done|]. by intros (_ & _ & _ & ?).
    - intros [[? ?]|[_ [[? ?]|?]]]; done. }
  edestruct (Register_slot_Ok svc) as (σ1 & -> & Ht & _); [exact Hc| |].
  { simpl. by rewrite lookup_insert_eq. }
  split_and!.
  - intros σ'. split; [done|]. by intros (_ & _ & _ & _ & ?).
  - intros e σ'. split; [done|]. by intros (_ & _ & _ & ?).
  - intros _. eauto.
Qed.


(** ** What a call may change on the remote side *)

Lemma only_removes_quiet σ σ' :
  remote σ' = remote σ → calls σ' = calls σ → only_removes σ σ'.
Proof.
  intros Hr Hc. unfold only_removes. rewrite Hr, Hc. split_and!; [done..|].
  exists []. by rewrite app_nil_r.
Qed.

Lemma only_removes_trans σ1 σ2 σ3 :
  only_removes σ1 σ2 → only_removes σ2 σ3 → only_removes σ1 σ3.
Proof.
  intros (Hk1 & Hc1 & evs1 & He1 & Hf1) (Hk2 & Hc2 & evs2 & He2 & Hf2).
  split_and!; [by etrans..|].
  exists (evs1 ++ evs2). rewrite He2, He1, <- app_assoc. split; [done|].
  by apply Forall_app.
Qed.

Lemma only_adds_quiet id σ σ' :
  remote σ' = remote σ → calls σ' = calls σ → only_adds id σ σ'.
Proof.
  intros Hr Hc. unfold only_adds. rewrite Hr, Hc. split_and!; [done..|].
  exists []. by rewrite app_nil_r.
Qed.

Lemma preserves_bind {A B} (R : State → State → Prop) (m : M A) (k : A → M B) :
  (∀ σ1 σ2 σ3, R σ1 σ2 → R σ2 σ3 → R σ1 σ3) →
  preserves R m → (∀ a, preserves R (k a)) → preserves R (m ≫= k).
Proof.
  intros Htrans Hm Hk σ. specialize (Hm σ).
  unfold mbind, M_bind. destruct (m σ) as [a σ1|e σ1|σ1]; simpl in *; try done.
  eapply Htrans; [done|]. apply Hk.
Qed.

Lemma removes_connect a : preserves only_removes (connect a).
Proof.
  intros σ. rewrite connect_run.
  destruct (agents (this σ) !! a); [by apply only_removes_quiet|].
  case_decide; [by apply only_removes_quiet|].
  destruct (newclient_err _ _); by apply only_removes_quiet.
Qed.

Lemma removes_ServiceDeregister cl id :
  preserves only_removes (ServiceDeregister cl id).
Proof.
  intros σ. destruct cl as [cl|]; [|by apply only_removes_quiet].
  unfold ServiceDeregister, mbind, M_bind, get.
  destruct (deregister_err (faults σ) cl id); simpl.
  - split_and!; [done..|]. eexists. split; [done|]. by repeat constructor.
  - split_and!; [done|apply delete_subseteq|].
    eexists. split; [done|]. by repeat constructor.
Qed.

Lemma removes_Delete cl key : preserves only_removes (Delete cl key).
Proof.
  intros σ. destruct cl as [cl|]; [|by apply only_removes_quiet].
  unfold Delete, mbind, M_bind, get.
  destruct (delete_err (faults σ) cl key); simpl.
  - split_and!; [done..|]. eexists. split; [done|]. by repeat constructor.
  - split_and!; [apply delete_subseteq|done|].
    eexists. split; [done|]. by repeat constructor.
Qed.

Lemma removes_deregister a svc : preserves only_removes (deregister a svc).
Proof.
  unfold deregister.
  apply preserves_bind; [apply only_removes_trans|apply removes_connect|].
  intros _. apply preserves_bind; [apply only_removes_trans| |].
  - intros σ. by apply only_removes_quiet.
  - intros cl. apply removes_ServiceDeregister.
Qed.

Lemma removes_deRegisterUpstream svc :
  preserves only_removes (deRegisterUpstream svc).
Proof.
  intros σ. rewrite deRegisterUpstream_run.
  destruct (agent_of_identifier (RID svc)) as [a|];
    [|by apply only_removes_quiet]. cbv zeta.
  destruct (agents (this σ) !! a) as [[cl|]|]; try by apply only_removes_quiet.
  destruct (delete_err _ _ _); simpl.
  - split_and!; [done..|]. eexists. split; [done|]. by repeat constructor.
  - split_and!; [apply delete_subseteq|done|].
    eexists. split; [done|]. by repeat constructor.
Qed.

Lemma removes_sweep_entry s b : preserves only_removes (sweep_entry s b).
Proof.
  unfold sweep_entry.
  apply preserves_bind; [apply only_removes_trans| |].
  { intros σ. by apply only_removes_quiet. }
  intros [|]; [intros σ; by apply only_removes_quiet|].
  apply preserves_bind; [apply only_removes_trans|apply removes_deregister|].
  intros [e|]; [intros σ; by apply only_removes_quiet|].
  apply preserves_bind;
    [apply only_removes_trans|apply removes_deRegisterUpstream|].
  intros _ σ. by apply only_removes_quiet.
Qed.

Lemma removes_range order :
  preserves only_removes (range_serviceCache order sweep_entry).
Proof.
  induction order as [|s rest IH]; simpl;
    [intros σ; by apply only_removes_quiet|].
  apply preserves_bind; [apply only_removes_trans| |].
  { intros σ. by apply only_removes_quiet. }
  intros σ. apply preserves_bind; [apply only_removes_trans| |done].
  destruct (serviceCache σ !! s); [apply removes_sweep_entry|].
  intros σ'. by apply only_removes_quiet.
Qed.

Lemma Register_slot_adds svc σ c :
  serviceCache σ !! ID svc = None →
  agents (this σ) !! Agent svc = Some c →
  only_adds (ID svc) σ (state_of (Register svc σ)).
Proof.
  intros Hmiss Hpool. rewrite (Register_slot svc σ c Hmiss Hpool).
  destruct c as [cl|]; [|by apply only_adds_quiet]. cbv zeta.
  assert (∀ m : gmap (string * string) AgentServiceRegistration,
            (∀ k, k.2 ≠ ID svc →
               <[(Address (consulapi.config cl), ID svc) := registration svc]> m
                 !! k = m !! k) ∧
            (∀ k, is_Some (m !! k) →
               is_Some (<[(Address (consulapi.config cl), ID svc)
                          := registration svc]> m !! k))) as Hcat.
  { intros m. split.
    - intros [k1 k2] Hk. apply lookup_insert_ne. simpl in Hk. congruence.
    - intros k Hk. rewrite lookup_insert_is_Some. destruct (decide
        ((Address (consulapi.config cl), ID svc) = k)); auto. }
  assert (is_write_for (ID svc)
            (EvServiceRegister cl (registration svc) None) = true) as Hw.
  { simpl. by rewrite registration_RID, bool_decide_eq_true. }
  destruct (register_err _ _ _) as [e|]; simpl.
  { split_and!; [done..|]. eexists. split; [done|]. repeat constructor.
    simpl. by rewrite registration_RID, bool_decide_eq_true. }
  destruct (cas_err _ _ _) as [e|]; simpl.
  { split_and!; [done|apply Hcat..|]. eexists.
    split; [simpl; by rewrite <- app_assoc|]. by repeat constructor. }
  destruct (kv (remote σ) !! _) eqn:Hkv; simpl.
  - split_and!; [done|apply Hcat..|]. eexists.
    split; [simpl; by rewrite <- app_assoc|]. by repeat constructor.
  - split_and!; [by apply insert_subseteq|apply Hcat..|]. eexists.
    split; [simpl; by rewrite <- app_assoc|]. by repeat constructor.
Qed.

(** X7.  [Register] takes nothing away.  However a call of [Register] for a
    service ends: every key of the key/value store keeps its value, the
    catalog entries of other identifiers are as before and no catalog
    entry is removed, the round trips made are catalog registrations for
    this identifier and check-and-sets only; pooled connections stay, the
    cache entries of other identifiers are as before, and an entry for this
    identifier that was in the cache still is. *)
Theorem Register_only_adds svc σ :
  let σ' := state_of (Register svc σ) in
  only_adds (ID svc) σ σ' ∧
  agents (this σ) ⊆ agents (this σ') ∧
  (∀ s, s ≠ ID svc → serviceCache σ' !! s = serviceCache σ !! s) ∧
  (is_Some (serviceCache σ !! ID svc) → is_Some (serviceCache σ' !! ID svc)).
Proof.
  cbv zeta. split_and!.
  - destruct (serviceCache σ !! ID svc) as [b|] eqn:Hc.
    { rewrite (Register_hit _ _ _ Hc). by apply only_adds_quiet. }
    destruct (agents (this σ) !! Agent svc) as [c|] eqn:Hpool.
    { by apply (Register_slot_adds svc σ c). }
    rewrite (Register_no_slot svc σ Hc Hpool).
    case_decide; [by apply only_adds_quiet|].
    destruct (newclient_err _ _); [by apply only_adds_quiet|].
    apply (Register_slot_adds svc
             (set_agents <[Agent svc :=
                Some (mkClient (agentConfig (config (this σ)) (Agent svc)))]> σ)
             (Some (mkClient (agentConfig (config (this σ)) (Agent svc)))));
      [done|]. simpl. by rewrite lookup_insert_eq.
  - apply (framed_Register svc σ).
  - intros s Hs. by apply (framed_Register svc σ).
  - apply Register_keeps.
Qed.

(** X8.  The sweep adds nothing.  However a sweep ends, and in whatever order
    it visits the cache: the key/value store and the catalogs have only
    lost entries, the round trips made are catalog deregistrations and key
    deletions only; no entry has come into the cache and none has changed
    but in its mark; pooled connections stay; and the cache entries that
    the sweep did not visit are as before. *)
Theorem Deregister_only_removes order σ :
  let σ' := state_of (Deregister order σ) in
  only_removes σ σ' ∧
  shrinks σ σ' ∧
  agents (this σ) ⊆ agents (this σ') ∧
  (∀ s, s ∉ order → serviceCache σ' !! s = serviceCache σ !! s).
Proof.
  cbv zeta. split_and!.
  - apply removes_range.
  - apply shrinking_range.
  - apply (framed_range order σ).
  - intros s Hs. by apply (framed_range order σ).
Qed.

(** ** Deregistration *)

Lemma deregister_run a svc σ :
  deregister a svc σ =
  let call cl σ1 :=
    match deregister_err (faults σ) cl (RID svc) with
    | Some e => Ok (Some e) (record (EvServiceDeregister cl (RID svc) (Some e)) σ1)
    | None =>
        Ok None (record (EvServiceDeregister cl (RID svc) None)
                   (set_catalog (delete (Address (consulapi.config cl), RID svc)) σ1))
    end in
  match agents (this σ) !! a with
  | Some (Some cl) => call cl σ
  | Some None => Panic NilDereference σ
  | None =>
      if decide (a = "") then Panic NilDereference (set_agents <[a := None]> σ)
      else if newclient_err (faults σ) (agentConfig (config (this σ)) a)
           then Fatal σ
           else call (mkClient (agentConfig (config (this σ)) a))
                  (set_agents
                     <[a := Some (mkClient (agentConfig (config (this σ)) a))]> σ)
  end.
Proof.
  cbv zeta.
  destruct (agents (this σ) !! a) as [[cl|]|] eqn:Hpool.
  - by apply deregister_pooled.
  - unfold deregister. rewrite bind_run, connect_run, Hpool.
    unfold agents_at, mbind, M_bind, get, mret, M_ret. by rewrite Hpool.
  - case_decide as Ha.
    + unfold deregister. rewrite bind_run, connect_run, Hpool.
      rewrite decide_True by done.
      unfold agents_at, mbind, M_bind, get, mret, M_ret. simpl.
      by rewrite lookup_insert_eq.
    + destruct (newclient_err _ _) eqn:Hnew.
      * unfold deregister. rewrite bind_run, connect_run, Hpool.
        rewrite decide_False by done. by rewrite Hnew.
      * transitivity (deregister a svc (set_agents
            <[a := Some (mkClient (agentConfig (config (this σ)) a))]> σ)).
        { unfold deregister. rewrite !bind_run, !connect_run, Hpool.
          rewrite decide_False by done. rewrite Hnew. simpl.
          by rewrite lookup_insert_eq. }
        rewrite (deregister_pooled a svc _
                   (mkClient (agentConfig (config (this σ)) a)));
          [done|]. simpl. by rewrite lookup_insert_eq.
Qed.

(** X9.  How [deregister] can end.  Unlike the backend metadata removal it
    connects to the agent when the pool has no slot for it: it ends the
    process exactly when the address is not empty, has no slot, and
    [api.NewClient] fails; it faults, with a nil pointer dereference,
    exactly when the slot holds [nil] or the address is empty and has no
    slot, and in the second case [nil] is stored under the empty address;
    and when it returns, the agent's connection is pooled, one
    deregistration round trip for the registration's identifier was made
    through it, whose result is the error returned, the identifier is gone
    from that agent's catalog if there was no error and the catalog is
    untouched otherwise, and the key/value store and the cache are as
    before. *)
Theorem deregister_call_outcomes a svc σ :
  (∀ σ', deregister a svc σ = Fatal σ' ↔
         σ' = σ ∧ a ≠ "" ∧ agents (this σ) !! a = None ∧
         newclient_err (faults σ) (agentConfig (config (this σ)) a) = true) ∧
  (∀ e σ', deregister a svc σ = Panic e σ' ↔
           e = NilDereference ∧
           ((agents (this σ) !! a = Some None ∧ σ' = σ) ∨
            (agents (this σ) !! a = None ∧ a = "" ∧
             σ' = set_agents <[a := None]> σ))) ∧
  (∀ err σ', deregister a svc σ = Ok err σ' →
     ∃ cl, agents (this σ') = pool_after σ a ∧
           agents (this σ') !! a = Some (Some cl) ∧
           err = deregister_err (faults σ) cl (RID svc) ∧
           calls σ' = calls σ ++ [EvServiceDeregister cl (RID svc) err] ∧
           catalog (remote σ') =
             match err with
             | Some _ => catalog (remote σ)
             | None => delete (Address (consulapi.config cl), RID svc)
                         (catalog (remote σ))
             end ∧
           kv (remote σ') = kv (remote σ) ∧
           serviceCache σ' = serviceCache σ).
Proof.
  rewrite deregister_run. cbv zeta. unfold pool_after.
  destruct (agents (this σ) !! a) as [[cl|]|] eqn:Hpool.
  - split_and!.
    + intros σ'. split; [by destruct (deregister_err _ _ _)|].
      by intros (_ & _ & ? & _).
    + intros e σ'. split; [by destruct (deregister_err _ _ _)|].
      by intros (_ & [[? _]|[? _]]).
    + intros err σ' Hrun. exists cl.
      destruct (deregister_err _ _ _) eqn:Herr; injection Hrun as <- <-;
        by rewrite ?Herr.
  - split_and!.
    + intros σ'. split; [done|]. by intros (_ & _ & ? & _).
    + intros e σ'. split; [intros [= <- <-]; auto|]. by intros (-> & [[_ ->]|[? _]]).
    + done.
  - case_decide as Ha.
    + split_and!.
      * intros σ'. split; [done|]. by intros (_ & ? & _).
      * intros e σ'. split; [intros [= <- <-]; auto|].
        by intros (-> & [[? _]|(_ & _ & ->)]).
      * done.
    + destruct (newclient_err _ _) eqn:Hnew.
      * split_and!.
        -- intros σ'. split; [by intros [= <-]|]. by intros (-> & _).
        -- intros e σ'. split; [done|]. by intros (_ & [[? _]|(_ & ? & _)]).
        -- done.
      * split_and!.
        -- intros σ'. split; [by destruct (deregister_err _ _ _)|].
           by intros (_ & _ & _ & ?).
        -- intros e σ'. split; [by destruct (deregister_err _ _ _)|].
           by intros (_ & [[? _]|(_ & ? & _)]).
        -- intros err σ' Hrun.
           exists (mkClient (agentConfig (config (this σ)) a)).
           destruct (deregister_err _ _ _) eqn:Herr; injection Hrun as <- <-;
             simpl; by rewrite lookup_insert_eq, ?Herr.
Qed.

Lemma sweep_entry_calls s b σ ev :
  serviceCache σ !! s = Some b →
  ev ∈ new_calls σ (state_of (sweep_entry s b σ)) →
  marked b = false ∧ sweeps (state_of (sweep_entry s b σ)) b ev.
Proof.
  intros Hc. destruct (marked b) eqn:Hm.
  { rewrite (sweep_entry_marked s b σ Hc Hm). simpl.
    rewrite (new_calls_app σ _ []) by (simpl; by rewrite app_nil_r).
    by intros ?%elem_of_nil. }
  rewrite (sweep_entry_stale s b σ Hc Hm), deregister_run. cbv zeta.
  assert (∀ cl σ1 ev,
    calls σ1 = calls σ →
    remote σ1 = remote σ → faults σ1 = faults σ →
    agents (this σ1) !! agent b = Some (Some cl) →
    let σ' := state_of
      match
        match deregister_err (faults σ) cl (RID (service b)) with
        | Some e => Ok (Some e)
              (record (EvServiceDeregister cl (RID (service b)) (Some e)) σ1)
        | None => Ok None
              (record (EvServiceDeregister cl (RID (service b)) None)
                 (set_catalog
                    (delete (Address (consulapi.config cl), RID (service b))) σ1))
        end
      with
      | Ok (Some _) σ1 => Ok tt σ1
      | Ok None σ1 =>
          match deRegisterUpstream (service b) σ1 with
          | Ok _ σ2 => Ok tt (set_serviceCache (delete s) σ2)
          | Panic e σ2 => Panic e σ2
          | Fatal σ2 => Fatal σ2
          end
      | Panic e σ1 => Panic e σ1
      | Fatal σ1 => Fatal σ1
      end in
    ev ∈ new_calls σ σ' → sweeps σ' b ev) as Hcall.
  { clear ev. intros cl σ1 ev Hcalls Hrem Hf Hpool. cbv zeta.
    destruct (deregister_err _ _ _) as [e|]; simpl.
    { rewrite (new_calls_app σ _ [EvServiceDeregister cl (RID (service b)) (Some e)])
        by (simpl; by rewrite Hcalls).
      intros ->%list_elem_of_singleton. done. }
    rewrite deRegisterUpstream_run.
    destruct (agent_of_identifier (RID (service b))) as [a|] eqn:Ha; simpl.
    2:{ rewrite (new_calls_app σ _ [EvServiceDeregister cl (RID (service b)) None])
          by (simpl; by rewrite Hcalls).
        intros ->%list_elem_of_singleton. done. }
    destruct (agents (this σ1) !! a) as [[cl'|]|] eqn:Hpool'; simpl.
    - destruct (delete_err _ _ _) as [e|]; simpl.
      + rewrite (new_calls_app σ _
                   [EvServiceDeregister cl (RID (service b)) None;
                    EvDelete cl' (hkey_of (RName (service b)) a (RPort (service b)))
                      (Some e)])
          by (simpl; by rewrite Hcalls, <- app_assoc).
        intros [->| ->%list_elem_of_singleton]%elem_of_cons; simpl; eauto.
      + rewrite (new_calls_app σ _
                   [EvServiceDeregister cl (RID (service b)) None;
                    EvDelete cl' (hkey_of (RName (service b)) a (RPort (service b)))
                      None])
          by (simpl; by rewrite Hcalls, <- app_assoc).
        intros [->| ->%list_elem_of_singleton]%elem_of_cons; simpl; eauto.
    - rewrite (new_calls_app σ _ [EvServiceDeregister cl (RID (service b)) None])
        by (simpl; by rewrite Hcalls).
      intros ->%list_elem_of_singleton. done.
    - rewrite (new_calls_app σ _ [EvServiceDeregister cl (RID (service b)) None])
        by (simpl; by rewrite Hcalls).
      intros ->%list_elem_of_singleton. done. }
  destruct (agents (this σ) !! agent b) as [[cl|]|] eqn:Hpool.
  - intros Hev. split; [done|]. by apply (Hcall cl σ).
  - simpl. rewrite new_calls_refl. by intros ?%elem_of_nil.
  - case_decide.
    { simpl. rewrite (new_calls_app σ _ []) by (simpl; by rewrite app_nil_r).
      by intros ?%elem_of_nil. }
    destruct (newclient_err _ _).
    { simpl. rewrite new_calls_refl. by intros ?%elem_of_nil. }
    intros Hev. split; [done|].
    apply (Hcall (mkClient (agentConfig (config (this σ)) (agent b)))
             (set_agents <[agent b :=
                Some (mkClient (agentConfig (config (this σ)) (agent b)))]> σ));
      [done..| |done].
    simpl. by rewrite lookup_insert_eq.
Qed.

Lemma sweeps_weaken σ1 σ2 b ev :
  agents (this σ1) ⊆ agents (this σ2) → sweeps σ1 b ev → sweeps σ2 b ev.
Proof.
  intros Hsub. destruct ev as [| | |cl key err]; simpl; try done.
  - intros [-> Hp]. split; [done|]. by eapply lookup_weaken.
  - intros (a & Ha & -> & Hp). exists a. split_and!; [done..|].
    by eapply lookup_weaken.
Qed.

Lemma range_calls order σ ev :
  NoDup order →
  ev ∈ new_calls σ (state_of (range_serviceCache order sweep_entry σ)) →
  ∃ s b, s ∈ order ∧ serviceCache σ !! s = Some b ∧ marked b = false ∧
         sweeps (state_of (range_serviceCache order sweep_entry σ)) b ev.
Proof.
  intros Hnd. revert σ. induction Hnd as [|s rest Hs Hnd IH]; intros σ.
  { simpl. rewrite new_calls_refl. by intros ?%elem_of_nil. }
  rewrite range_cons.
  destruct (serviceCache σ !! s) as [b|] eqn:Hc.
  2:{ intros (s' & b' & ? & ? & ? & ?)%IH. exists s', b'.
      split_and!; [by right|done..]. }
  pose proof (sweep_entry_calls s b σ ev Hc) as Hbody.
  pose proof (framed_sweep_entry s b σ) as Hframe.
  destruct (sweep_entry s b σ) as [[] σ1|e σ1|σ1] eqn:Hrun; simpl in *.
  - pose proof (framed_range rest σ1) as Hframe'.
    rewrite (new_calls_trans σ σ1) by (apply Hframe || apply Hframe').
    intros [Hin|Hin]%elem_of_app.
    + destruct (Hbody Hin) as [Hm Hsw]. exists s, b.
      split_and!; [by left|done..|].
      eapply sweeps_weaken; [|done]. apply Hframe'.
    + destruct (IH σ1 Hin) as (s' & b' & Hs' & Hc' & Hm' & Hsw').
      exists s', b'. split_and!; [by right| |done..].
      rewrite <- Hc'. symmetry. apply Hframe. intros ->. done.
  - intros Hin. destruct (Hbody Hin) as [Hm Hsw]. exists s, b.
    split_and!; [by left|done..].
  - intros Hin. destruct (Hbody Hin) as [Hm Hsw]. exists s, b.
    split_and!; [by left|done..].
Qed.

(** X10.  Every round trip of the sweep is for a stale entry.  When the sweep
    visits each key at most once, every round trip it makes, however it
    ends, is for an entry that was in the cache, unmarked, when it began:
    either the deregistration of the entry's stored identifier, through the
    pooled connection to the entry's agent, or the deletion of the key made
    from the entry's name and port and the agent name read off its
    identifier, through the pooled connection to that agent.  No round trip
    is made for a marked entry, and none that registers or writes. *)
Theorem Deregister_calls_justified order σ ev :
  NoDup order →
  ev ∈ new_calls σ (state_of (Deregister order σ)) →
  ∃ s b, s ∈ order ∧ serviceCache σ !! s = Some b ∧ marked b = false ∧
         sweeps (state_of (Deregister order σ)) b ev.
Proof. apply range_calls. Qed.


(** ** The sweep as a whole *)

Lemma State_eq σ σ' :
  this σ' = this σ → serviceCache σ' = serviceCache σ → remote σ' = remote σ →
  faults σ' = faults σ → calls σ' = calls σ → σ' = σ.
Proof. destruct σ, σ'. simpl. by intros -> -> -> -> ->. Qed.

Lemma sweep_entry_step s b σ :
  serviceCache σ !! s = Some b →
  map_Forall (λ _ c, c ≠ None) (agents (this σ)) →
  is_Some (agents (this σ) !! agent b) →
  let o := sweep_entry s b σ in
  this (state_of o) = this σ ∧
  match o with
  | Ok _ _ => True
  | Panic e σ' =>
      e = IndexOutOfRange 1 1 ∧ marked b = false ∧
      Strings.Contains (RID (service b)) ":" = false ∧
      serviceCache σ' = serviceCache σ ∧
      ∃ cl, agents (this σ) !! agent b = Some (Some cl) ∧
            deregister_err (faults σ) cl (RID (service b)) = None
  | Fatal _ => False
  end.
Proof.
  intros Hc Hnil [c Hpool]. cbv zeta.
  destruct (marked b) eqn:Hm.
  { by rewrite (sweep_entry_marked s b σ Hc Hm). }
  destruct c as [cl|]; [|by destruct (Hnil _ _ Hpool)].
  destruct (deregister_err (faults σ) cl (RID (service b))) as [e|] eqn:Herr.
  { by rewrite (sweep_entry_failed s b σ cl e Hc Hm Hpool Herr). }
  rewrite (sweep_entry_deregistered s b σ cl Hc Hm Hpool Herr). cbv zeta.
  destruct (agent_of_identifier (RID (service b))) as [a|] eqn:Ha.
  - destruct (agents (this σ) !! a) as [[cl'|]|] eqn:Hpool'.
    + by destruct (delete_err _ _ _).
    + by destruct (Hnil _ _ Hpool').
    + done.
  - simpl. split_and!; try done; [|by exists cl].
    by apply agent_of_identifier_None.
Qed.

Lemma range_outcomes order σ :
  NoDup order →
  map_Forall (λ _ c, c ≠ None) (agents (this σ)) →
  (∀ s b, serviceCache σ !! s = Some b → is_Some (agents (this σ) !! agent b)) →
  let o := range_serviceCache order sweep_entry σ in
  this (state_of o) = this σ ∧
  (∀ σ', o ≠ Fatal σ') ∧
  ∀ e σ', o = Panic e σ' →
    e = IndexOutOfRange 1 1 ∧
    ∃ s b cl, s ∈ order ∧ serviceCache σ !! s = Some b ∧ marked b = false ∧
      Strings.Contains (RID (service b)) ":" = false ∧
      agents (this σ) !! agent b = Some (Some cl) ∧
      deregister_err (faults σ) cl (RID (service b)) = None ∧
      serviceCache σ' !! s = Some b.
Proof.
  intros Hnd. revert σ. induction Hnd as [|s rest Hs Hnd IH]; intros σ Hnil Hag.
  { simpl. split_and!; done. }
  cbv zeta. rewrite range_cons.
  destruct (serviceCache σ !! s) as [b|] eqn:Hc.
  2:{ destruct (IH σ Hnil Hag) as (Ht & Hf & Hp). split_and!; [done..|].
      intros e σ' Hrun. destruct (Hp e σ' Hrun) as (-> & s' & b' & cl & ? & ?).
      split; [done|]. exists s', b', cl. split; [by right|done]. }
  destruct (sweep_entry_step s b σ Hc Hnil (Hag s b Hc)) as [Ht Hout].
  pose proof (framed_sweep_entry s b σ) as Hframe.
  pose proof (shrinking_sweep_entry s b σ) as Hshr.
  destruct (sweep_entry s b σ) as [[] σ1|e σ1|σ1]; simpl in *; [| |done].
  - destruct (IH σ1) as (Ht1 & Hf1 & Hp1).
    { by rewrite Ht. }
    { intros s' b' Hc'. destruct (Hshr s' b' Hc') as (b0 & Hc0 & _ & Hag0).
      rewrite Ht, Hag0. by eapply Hag. }
    split_and!; [by rewrite Ht1|done|].
    intros e σ' Hrun.
    destruct (Hp1 e σ' Hrun)
      as (-> & s' & b' & cl & Hin & Hc' & Hm' & Hcol & Hpool & Herr & Hfin).
    split; [done|]. exists s', b', cl.
    destruct Hframe as (Hfaults & _ & _ & _ & Hother).
    split_and!; [by right| |done..| | |done].
    + rewrite <- Hc'. symmetry. apply Hother. intros ->. done.
    + by rewrite <- Ht.
    + by rewrite <- Hfaults.
  - destruct Hout as (-> & Hm & Hcol & Hcache & cl & Hpool & Herr).
    split_and!; [done..|]. intros e σ' [= <- <-]. split; [done|].
    exists s, b, cl. split_and!; [by left|done..|by rewrite Hcache].
Qed.

(** X12.  How the sweep can end, in a state the process can reach.  It leaves
    the pool as it is and never ends the process; and it faults only with
    an index out of range, on an unmarked entry whose identifier has no
    colon and whose catalog deregistration went through, an entry that is
    then still in the cache. *)
Theorem Deregister_outcomes σ order :
  reachable σ → range_order order σ →
  let o := Deregister order σ in
  this (state_of o) = this σ ∧
  (∀ σ', o ≠ Fatal σ') ∧
  ∀ e σ', o = Panic e σ' →
    e = IndexOutOfRange 1 1 ∧
    ∃ s b cl, serviceCache σ !! s = Some b ∧ marked b = false ∧
      Strings.Contains s ":" = false ∧
      agents (this σ) !! agent b = Some (Some cl) ∧
      deregister_err (faults σ) cl s = None ∧
      serviceCache σ' !! s = Some b.
Proof.
  intros Hreach [Hnd _]. destruct (reachable_wf _ Hreach) as [Hp Hc].
  destruct (range_outcomes order σ Hnd) as (Ht & Hf & Hpanic).
  { intros a c Ha. destruct (Hp _ _ Ha) as [_ ->]. done. }
  { intros s b Hb. by destruct (Hc s b Hb). }
  split_and!; [done..|]. intros e σ' Hrun.
  destruct (Hpanic e σ' Hrun)
    as (-> & s & b & cl & _ & Hb & Hm & Hcol & Hpool & Herr & Hfin).
  split; [done|]. exists s, b, cl. destruct (Hc s b Hb) as [<- _].
  split_and!; done.
Qed.

(** X13.  The cache after a sweep does not depend on the order of the visit.
    From a state the process can reach, in which the identifier of every
    unmarked entry contains a colon, the sweep returns and the cache it
    leaves is the old one with every marked entry unmarked, every unmarked
    entry whose deregistration fails kept, and every unmarked entry whose
    deregistration goes through dropped; so any two orders of visit leave
    the same cache. *)
Theorem Deregister_order_independent σ order :
  reachable σ → range_order order σ →
  map_Forall (λ s b, marked b = false → Strings.Contains s ":" = true)
    (serviceCache σ) →
  ∃ σ', Deregister order σ = Ok tt σ' ∧
    serviceCache σ' = omap (sweep_fate σ) (serviceCache σ) ∧
    ∀ order' σ'', range_order order' σ → Deregister order' σ = Ok tt σ'' →
      serviceCache σ'' = serviceCache σ'.
Proof.
  intros Hreach Horder Hcolon.
  assert (∀ order, range_order order σ →
            ∃ σ', Deregister order σ = Ok tt σ' ∧
                  serviceCache σ' = omap (sweep_fate σ) (serviceCache σ))
    as Hclosed.
  { clear order Horder. intros order [Hnd Hdom].
    destruct (reachable_sweep_ready σ Hreach) as [Hnil Hready].
    { intros s b Hb Hm. by apply (Hcolon s b Hb). }
    destruct (range_ready order σ Hnd Hnil) as (σ' & Hrun & _ & _ & Hpost).
    { intros s b _ Hb Hm. by apply (Hready s b Hb). }
    exists σ'. split; [done|]. apply map_eq. intros s.
    rewrite lookup_omap.
    destruct (serviceCache σ !! s) as [b|] eqn:Hb; simpl.
    - assert (s ∈ order) as Hin.
      { apply (range_order_elem order σ s b); [by split|done]. }
      specialize (Hpost s b Hin Hb). unfold sweep_fate.
      destruct (marked b); [done|].
      destruct Hpost as (cl & -> & _ & Hcase).
      by destruct (deregister_err _ _ _); [|destruct Hcase].
    - assert (s ∉ order) as Hout.
      { intros Hin. apply (not_elem_of_dom (serviceCache σ) s); [done|].
        rewrite <- Hdom. by apply elem_of_list_to_set. }
      pose proof (framed_range order σ) as Hframe.
      unfold Deregister in Hrun. rewrite Hrun in Hframe.
      destruct Hframe as (_ & _ & _ & _ & Hother).
      rewrite <- Hb. by apply Hother. }
  destruct (Hclosed order Horder) as (σ' & Hrun & Hcache).
  exists σ'. split_and!; [done..|].
  intros order' σ'' Horder' Hrun'.
  destruct (Hclosed order' Horder') as (σ2 & Hrun2 & Hcache2).
  rewrite Hrun' in Hrun2. injection Hrun2 as <-. by rewrite Hcache2.
Qed.

Lemma RegisterAll_hits svcs σ :
  (∀ svc, svc ∈ svcs → is_Some (serviceCache σ !! ID svc)) →
  ∃ σ', RegisterAll svcs σ = Ok tt σ' ∧
    this σ' = this σ ∧ remote σ' = remote σ ∧ faults σ' = faults σ ∧
    calls σ' = calls σ ∧
    ∀ s, serviceCache σ' !! s =
         if decide (s ∈ ID <$> svcs)
         then set_marked true <$> serviceCache σ !! s
         else serviceCache σ !! s.
Proof.
  revert σ. induction svcs as [|svc rest IH]; intros σ Hall.
  { exists σ. by split_and!. }
  destruct (Hall svc) as [b Hb]; [by left|].
  simpl. rewrite bind_run, (Register_hit σ svc b Hb).
  destruct (IH (set_serviceCache (alter (set_marked true) (ID svc)) σ))
    as (σ' & Hrun & Ht & Hr & Hf & Hcalls & Hcache).
  { intros svc' Hin. simpl. rewrite lookup_alter_is_Some.
    apply Hall. by right. }
  exists σ'. split_and!; try done. intros s. rewrite Hcache.
  cbn [serviceCache set_serviceCache].
  destruct (decide (s = ID svc)) as [->|Hne].
  - rewrite lookup_alter_eq, Hb. rewrite (decide_True (P := _ ∈ _ :: _))
      by (by left). by case_decide.
  - rewrite lookup_alter_ne by done.
    case_decide as Hin.
    + by rewrite decide_True by (by right).
    + rewrite decide_False; [done|]. by intros [?|?]%elem_of_cons.
Qed.

Lemma range_all_marked order σ :
  NoDup order →
  (∀ s b, s ∈ order → serviceCache σ !! s = Some b → marked b = true) →
  ∃ σ', range_serviceCache order sweep_entry σ = Ok tt σ' ∧
    this σ' = this σ ∧ remote σ' = remote σ ∧ faults σ' = faults σ ∧
    calls σ' = calls σ ∧
    ∀ s, serviceCache σ' !! s =
         if decide (s ∈ order)
         then set_marked false <$> serviceCache σ !! s
         else serviceCache σ !! s.
Proof.
  intros Hnd. revert σ. induction Hnd as [|s rest Hs Hnd IH]; intros σ Hall.
  { exists σ. by split_and!. }
  rewrite range_cons.
  destruct (serviceCache σ !! s) as [b|] eqn:Hb.
  - rewrite (sweep_entry_marked s b σ Hb) by (apply (Hall s b); [by left|done]).
    destruct (IH (set_serviceCache (alter (set_marked false) s) σ))
      as (σ' & Hrun & Ht & Hr & Hf & Hcalls & Hcache).
    { intros s' b' Hin. simpl. rewrite lookup_alter_ne by (intros ->; done).
      apply Hall. by right. }
    exists σ'. split_and!; try done. intros s'. rewrite Hcache. simpl.
    destruct (decide (s' = s)) as [->|Hne].
    + rewrite lookup_alter_eq, Hb, decide_False by done.
      by rewrite decide_True by (by left).
    + rewrite lookup_alter_ne by done. case_decide as Hin.
      * by rewrite decide_True by (by right).
      * rewrite decide_False; [done|]. by intros [?|?]%elem_of_cons.
  - destruct (IH σ) as (σ' & Hrun & Ht & Hr & Hf & Hcalls & Hcache).
    { intros s' b' Hin. apply Hall. by right. }
    exists σ'. split_and!; try done. intros s'. rewrite Hcache.
    case_decide as Hin.
    + by rewrite decide_True by (by right).
    + destruct (decide (s' = s)) as [->|Hne].
      * rewrite decide_True by (by left). by rewrite Hb.
      * rewrite decide_False; [done|]. by intros [?|?]%elem_of_cons.
Qed.

(** X14.  A cycle in the steady state is silent.  When the services presented
    are exactly the ones in the cache, a cycle ([Register] for each of
    them, then the sweep) returns, makes no round trip, and leaves the
    pool and the remote side as they are; the cache is the old one with
    every entry unmarked. *)
Theorem cycle_steady_state σ svcs order :
  range_order order σ →
  dom (serviceCache σ) = list_to_set (ID <$> svcs) →
  cycle svcs order σ =
    Ok tt (set_serviceCache (fmap (set_marked false)) σ).
Proof.
  intros [Hnd Hdom] Hsvcs.
  assert (∀ s, s ∈ ID <$> svcs ↔ is_Some (serviceCache σ !! s)) as Hin.
  { intros s. by rewrite <- elem_of_dom, Hsvcs, elem_of_list_to_set. }
  destruct (RegisterAll_hits svcs σ) as (σ1 & Hrun1 & Ht1 & Hr1 & Hf1 & Hc1 & Hm1).
  { intros svc Hsvc. apply Hin. by apply list_elem_of_fmap_2. }
  destruct (range_all_marked order σ1 Hnd)
    as (σ2 & Hrun2 & Ht2 & Hr2 & Hf2 & Hc2 & Hm2).
  { intros s b _. rewrite Hm1. case_decide as Hs.
    - destruct (serviceCache σ !! s); [|done]. by intros [= <-].
    - intros Hb. destruct Hs. apply Hin. by rewrite Hb. }
  unfold cycle. rewrite bind_run, Hrun1. unfold Deregister. rewrite Hrun2.
  f_equal. apply State_eq; simpl; try congruence.
  apply map_eq. intros s. rewrite lookup_fmap, Hm2, Hm1.
  assert (s ∈ order ↔ is_Some (serviceCache σ !! s)) as Hord.
  { by rewrite <- elem_of_dom, <- Hdom, elem_of_list_to_set. }
  destruct (serviceCache σ !! s) as [b|] eqn:Hb; simpl.
  - rewrite decide_True by (by apply Hord).
    rewrite decide_True by (by apply Hin). done.
  - by repeat case_decide.
Qed.

(** ** Identifiers made of a prefix, the agent address and more *)

Lemma fields_app c p s :
  occurs c p = false → fields c (p +:+ String c s) = p :: fields c s.
Proof.
  induction p as [|x p IH]; intros Hp.
  - change (fields c (String c s) = EmptyString :: fields c s).
    simpl. by rewrite decide_True.
  - simpl in Hp. destruct (decide (x = c)) as [|Hx]; [done|].
    change (fields c (String x (p +:+ String c s)) = String x p :: fields c s).
    simpl. rewrite decide_False by done. by rewrite IH.
Qed.

Lemma fields_whole c s : occurs c s = false → fields c s = [s].
Proof.
  intros Hs. destruct (proj1 (fields_single c s) Hs) as [x Hx].
  pose proof (join_fields c s) as Hj. rewrite Hx in Hj. simpl in Hj.
  by rewrite Hx, Hj.
Qed.

Lemma occurs_first_field c c' s :
  occurs c' (hd EmptyString (fields c s)) = true → occurs c' s = true.
Proof.
  induction s as [|x s IH]; [done|]. simpl.
  destruct (decide (x = c)) as [->|Hx]; [done|].
  pose proof (fields_nonempty c s) as Hne.
  destruct (fields c s) as [|y l] eqn:Hf; [done|]. simpl in *.
  destruct (decide (x = c')); [done|]. apply IH.
Qed.

Lemma composed_fields id p a :
  composed id p a → ∃ rest, fields colon id = p :: a :: rest.
Proof.
  intros (Hp & Ha & [->| [r ->]]).
  - exists []. change (p +:+ ":" +:+ a) with (p +:+ String colon a).
    by rewrite fields_app, fields_whole.
  - exists (fields colon r).
    change (p +:+ ":" +:+ a +:+ ":" +:+ r)
      with (p +:+ String colon (a +:+ String colon r)).
    by rewrite !fields_app.
Qed.

(** X15.  The agent read off an identifier that was composed from a prefix, the
    agent address and possibly more, with colons between them (prefix and
    address holding no colon): [deRegisterUpstream] finds the address up to
    its first dash, or the whole address if it has none; the name found
    holds neither a dash nor a colon, and it is the agent address exactly
    when that has no dash. *)
Theorem upstreamAgent_composed id p a σ :
  composed id p a →
  ∃ a', upstreamAgent id σ = Ok a' σ ∧
    a' = (if occurs dash a then hd EmptyString (fields dash a) else a) ∧
    occurs dash a' = false ∧ occurs colon a' = false ∧
    (a' = a ↔ Strings.Contains a "-" = false).
Proof.
  intros Hcomp. pose proof Hcomp as (_ & Ha & _).
  destruct (composed_fields id p a Hcomp) as [rest Hf].
  rewrite upstreamAgent_run. unfold agent_of_identifier. rewrite Hf.
  eexists. split; [done|]. split; [done|].
  rewrite dash_sep, Contains_occurs.
  destruct (occurs dash a) eqn:Hd; [|by split_and!].
  assert (occurs dash (hd EmptyString (fields dash a)) = false) as Hfree.
  { pose proof (fields_free dash a) as Hall.
    destruct (fields dash a); [done|]. by inversion Hall. }
  split_and!; [done| |].
  - destruct (occurs colon (hd EmptyString (fields dash a))) eqn:Hc; [|done].
    apply occurs_first_field in Hc. congruence.
  - split; [|done]. intros Heq. rewrite Heq in Hfree. congruence.
Qed.





(** ** Two instances behind one backend record *)



(** ** The backend metadata calls and the pool *)

(** X19.  The backend metadata calls work with the pool as it is.  Neither
    [registerUpstream] nor [deRegisterUpstream] changes the pool, the cache
    or a catalog, however it ends.  When the pool has no slot for the
    agent, [registerUpstream] faults with a nil pointer dereference (it
    does not connect), while [deRegisterUpstream], for the agent name it
    reads off the identifier, makes no round trip and reports success. *)
Theorem upstream_calls_use_the_pool svc s σ :
  let σ1 := state_of (registerUpstream svc σ) in
  let σ2 := state_of (deRegisterUpstream s σ) in
  (this σ1 = this σ ∧ serviceCache σ1 = serviceCache σ ∧
   catalog (remote σ1) = catalog (remote σ)) ∧
  (this σ2 = this σ ∧ serviceCache σ2 = serviceCache σ ∧
   catalog (remote σ2) = catalog (remote σ)) ∧
  (agents (this σ) !! Agent svc = None →
   registerUpstream svc σ = Panic NilDereference σ) ∧
  (∀ a, agent_of_identifier (RID s) = Some a →
        agents (this σ) !! a = None →
        deRegisterUpstream s σ = Ok (None, true) σ).
Proof.
  cbv zeta. split; [|split; [|split]].
  - destruct (agents (this σ) !! Agent svc) as [[cl|]|] eqn:Hpool.
    + rewrite (registerUpstream_pooled svc σ cl Hpool). cbv zeta.
      destruct (cas_err _ _ _); [done|]. by destruct (kv (remote σ) !! _).
    + rewrite registerUpstream_nil; [done|]. by rewrite Hpool.
    + rewrite registerUpstream_nil; [done|]. by rewrite Hpool.
  - rewrite deRegisterUpstream_run.
    destruct (agent_of_identifier (RID s)) as [a|]; [|done]. cbv zeta.
    destruct (agents (this σ) !! a) as [[cl|]|]; [|done..].
    by destruct (delete_err _ _ _).
  - intros Hpool. apply registerUpstream_nil. by rewrite Hpool.
  - intros a Ha Hpool. by rewrite deRegisterUpstream_run, Ha, Hpool.
Qed.

(** ** The further properties at the example inputs *)

Lemma client_reuses_connection_witness :
  client "agentA" (state_of (client "agentA" start)) =
    Ok (Some clientA) (state_of (client "agentA" start)).
Proof.
  refine (proj1 (client_reuses_connection start "agentA" (Some clientA) _ _)).
  vm_compute. reflexivity.
Defined.

Lemma Register_success_witness :
  ∃ σ', Register web1 start = Ok tt σ' ∧
        serviceCache σ' !! ID web1 =
          Some {| service := registration web1; agent := "agentA";
                  marked := true |}.
Proof.
  destruct (Register_success start web1 clientA) as (σ' & Hrun & Hc & _).
  - vm_compute. reflexivity.
  - right. split; [|split; [|split]].
    + vm_compute. reflexivity.
    + discriminate.
    + reflexivity.
    + reflexivity.
  - reflexivity.
  - reflexivity.
  - exists σ'. split; [exact Hrun|exact Hc].
Defined.

Lemma Register_returns_witness : ∃ σ', Register web1 start = Ok tt σ'.
Proof.
  destruct (Register_returns start web1) as (_ & _ & Hok).
  - apply reachable_New.
  - apply Hok. right. split; [discriminate|]. right. reflexivity.
Defined.



Lemma cycle_steady_state_witness :
  cycle [web1] ["web-1:agentA-3"] (stale_after web1) =
    Ok tt (set_serviceCache (fmap (set_marked false)) (stale_after web1)).
Proof.
  apply (cycle_steady_state (stale_after web1) [web1] ["web-1:agentA-3"]).
  - split; [apply NoDup_singleton|]. vm_compute. reflexivity.
  - vm_compute. reflexivity.
Defined.

Lemma Deregister_order_independent_witness :
  ∃ σ', Deregister ["web-1:agentA-3"] (stale_after web1) = Ok tt σ' ∧
        serviceCache σ' =
          omap (sweep_fate (stale_after web1)) (serviceCache (stale_after web1)).
Proof.
  destruct (Deregister_order_independent (stale_after web1) ["web-1:agentA-3"])
    as (σ' & Hrun & Hc & _).
  - apply reachable_stale_after.
    + vm_compute. reflexivity.
    + split; [apply NoDup_singleton|]. vm_compute. reflexivity.
    + vm_compute. reflexivity.
  - split; [apply NoDup_singleton|]. vm_compute. reflexivity.
  - apply (bool_decide_unpack _). vm_compute. exact I.
  - exists σ'. split; [exact Hrun|exact Hc].
Defined.

Lemma Deregister_outcomes_witness :
  this (state_of (Deregister ["web"] (stale_after bare))) =
    this (stale_after bare) ∧
  ∀ σ', Deregister ["web"] (stale_after bare) ≠ Fatal σ'.
Proof.
  destruct (Deregister_outcomes (stale_after bare) ["web"])
    as (Hthis & Hfatal & _).
  - apply reachable_stale_after.
    + vm_compute. reflexivity.
    + split; [apply NoDup_singleton|]. vm_compute. reflexivity.
    + vm_compute. reflexivity.
  - split; [apply NoDup_singleton|]. vm_compute. reflexivity.
  - split; [exact Hthis|exact Hfatal].
Defined.

Lemma upstreamAgent_composed_witness :
  ∃ a', upstreamAgent "mesos-consul:node-1:web:80" start = Ok a' start ∧
        a' = "node".
Proof.
  destruct (upstreamAgent_composed "mesos-consul:node-1:web:80"
              "mesos-consul" "node-1" start) as (a' & Hrun & Ha & _).
  - split; [reflexivity|]. split; [reflexivity|].
    right. exists "web:80". reflexivity.
  - exists a'. split; [exact Hrun|exact Ha].
Defined.




Lemma Deregister_calls_justified_witness :
  ∃ s b, s ∈ ["web-1:agentA-3"] ∧
         serviceCache (stale_after web1) !! s = Some b ∧ marked b = false.
Proof.
  destruct (Deregister_calls_justified ["web-1:agentA-3"] (stale_after web1)
              (EvServiceDeregister clientA "web-1:agentA-3" None))
    as (s & b & Hin & Hb & Hm & _).
  - apply NoDup_singleton.
  - vm_compute. constructor.
  - exists s, b. split; [exact Hin|]. split; [exact Hb|exact Hm].
Defined.
